(** * Password CSV Compare: the data pipeline of [app.js]

    A shallow embedding of the pure core of [src/app.js] (CSV tokenizer,
    column mapper, record normaliser, comparator and serialiser) together
    with the properties stated about it.

    JavaScript strings are modelled as lists of 8-bit code units
    ([list ascii]): the Latin-1 range of the UTF-16 code units the source
    works on.  Objects used as maps are [gmap]s, [Set]s are [gset]s. *)

From Stdlib Require Import Ascii NArith.
From stdpp Require Import gmap strings list fin_maps.

Local Open Scope char_scope.

(** ** Strings and characters *)

Abbreviation jsstring := (list ascii).

(** A string literal of the source as a list of code units. *)
Fixpoint str (s : string) : jsstring :=
  match s with
  | EmptyString => []
  | String c s' => c :: str s'
  end.

Definition QUOTE : ascii := "034".
Definition COMMA : ascii := ",".
Definition LF : ascii := "010".
Definition CR : ascii := "013".
Definition SLASH : ascii := "/".
Definition PIPE : ascii := "|".
Definition AT : ascii := "@".
Definition DOT : ascii := ".".

Definition eqc (a b : ascii) : bool := bool_decide (a = b).

Definition in_range (lo hi : N) (c : ascii) : bool :=
  ((lo <=? N_of_ascii c) && (N_of_ascii c <=? hi))%N.

(** [String.prototype.toLowerCase] on one Latin-1 code unit: A-Z and the
    accented capitals U+00C0-U+00DE (except the multiplication sign U+00D7)
    move up by 32; everything else is unchanged. *)
Definition lowerChar (c : ascii) : ascii :=
  if in_range 65 90 c || in_range 192 214 c || in_range 216 222 c
  then ascii_of_N (N_of_ascii c + 32)
  else c.

Definition toLowerCase (s : jsstring) : jsstring := map lowerChar s.

(** [s.length > 0], the truthiness of a string. *)
Definition truthy (s : jsstring) : bool :=
  match s with [] => false | _ => true end.

(** [a || b] on strings. *)
Definition orElse (a b : jsstring) : jsstring :=
  if truthy a then a else b.

(** [s.startsWith(p)] *)
Fixpoint startsWith (p s : jsstring) : bool :=
  match p, s with
  | [], _ => true
  | _ :: _, [] => false
  | a :: p', b :: s' => eqc a b && startsWith p' s'
  end.

(** [s.includes(sub)] *)
Fixpoint includes (s sub : jsstring) : bool :=
  startsWith sub s ||
  match s with
  | [] => false
  | _ :: s' => includes s' sub
  end.

(** [arr.join(sep)] on an array of strings. *)
Fixpoint join (sep : jsstring) (l : list jsstring) : jsstring :=
  match l with
  | [] => []
  | [x] => x
  | x :: rest => x ++ sep ++ join sep rest
  end.

(** ** CSV tokenizer ([parseCSV]) *)

(** The loop state: the rows emitted so far, the current row, the current
    field and the quote flag.  The index [i] of the source is the position
    of the remaining input; [i++] inside the body drops one more
    character. *)
Fixpoint parseCSV_loop (text : jsstring)
    (rows : list (list jsstring)) (row : list jsstring)
    (field : jsstring) (inQuotes : bool) : list (list jsstring) :=
  match text with
  | [] =>
      if truthy field || bool_decide (0 < length row)
      then rows ++ [row ++ [field]]
      else rows
  | c :: rest =>
      if eqc c QUOTE then
        match rest with
        | c' :: rest' =>
            if inQuotes && eqc c' QUOTE
            then parseCSV_loop rest' rows row (field ++ [QUOTE]) inQuotes
            else parseCSV_loop rest rows row field (negb inQuotes)
        | [] => parseCSV_loop rest rows row field (negb inQuotes)
        end
      else if eqc c COMMA && negb inQuotes then
        parseCSV_loop rest rows (row ++ [field]) [] inQuotes
      else if (eqc c LF || eqc c CR) && negb inQuotes then
        match rest with
        | c' :: rest' =>
            if eqc c CR && eqc c' LF
            then parseCSV_loop rest' (rows ++ [row ++ [field]]) [] [] inQuotes
            else parseCSV_loop rest (rows ++ [row ++ [field]]) [] [] inQuotes
        | [] => parseCSV_loop rest (rows ++ [row ++ [field]]) [] [] inQuotes
        end
      else parseCSV_loop rest rows row (field ++ [c]) inQuotes
  end.

Definition parseCSV (text : jsstring) : list (list jsstring) :=
  parseCSV_loop text [] [] [] false.

(** ** Column mapper ([FIELD_SYNONYMS], [detectMapping]) *)

(** The property names of a credential object that a column can map to:
    the keys of [FIELD_SYNONYMS]. *)
Inductive prop : Set :=
  | p_title | p_url | p_username | p_password | p_notes | p_otpAuth.

Global Instance prop_eq_dec : EqDecision prop.
Proof. solve_decision. Defined.

Definition prop_to_nat (p : prop) : nat :=
  match p with
  | p_title => 0 | p_url => 1 | p_username => 2
  | p_password => 3 | p_notes => 4 | p_otpAuth => 5
  end.

Definition prop_of_nat (n : nat) : option prop :=
  match n with
  | 0 => Some p_title | 1 => Some p_url | 2 => Some p_username
  | 3 => Some p_password | 4 => Some p_notes | 5 => Some p_otpAuth
  | _ => None
  end.

Global Instance prop_countable : Countable prop.
Proof.
  apply (inj_countable prop_to_nat prop_of_nat). by intros [].
Defined.

(** The object literal, in the insertion order [for ... in] enumerates. *)
Definition FIELD_SYNONYMS : list (prop * list jsstring) :=
  [ (p_title, [str "title"; str "name"; str "nom"; str "item"; str "account"]);
    (p_url, [str "url"; str "website"; str "site"; str "address";
             str "webaddress"; str "adresse"]);
    (p_username, [str "username"; str "login"; str "email"; str "e-mail";
                  str "user"; str "utilisateur"]);
    (p_password, [str "password"; str "motdepasse"; str "passcode"]);
    (p_notes, [str "notes"; str "note"; str "remarks"; str "comment";
               str "commentaires"; str "remarques"]);
    (p_otpAuth, [str "otp"; str "totp"; str "twofactor"; str "otpAuth"]) ].

Definition isAlnumLower (c : ascii) : bool :=
  in_range 97 122 c || in_range 48 57 c.

(** [s.toLowerCase().replace(/[^a-z0-9]/g, '')] *)
Definition normalizeName (s : jsstring) : jsstring :=
  List.filter isAlnumLower (toLowerCase s).

(** Does [normalized] contain one of the synonyms (the inner [for ... of])? *)
Definition hitsSynonym (normalized : jsstring) (synonyms : list jsstring) : bool :=
  existsb (fun syn => includes normalized (normalizeName syn)) synonyms.

(** The two nested loops of the callback up to the first [includes] that
    succeeds: the property whose synonym is hit first, in table order. *)
Fixpoint firstHit (normalized : jsstring)
    (table : list (prop * list jsstring)) : option prop :=
  match table with
  | [] => None
  | (p, synonyms) :: table' =>
      if hitsSynonym normalized synonyms then Some p
      else firstHit normalized table'
  end.

(** [FIELD_SYNONYMS[prop]] *)
Definition synonymsOf (p : prop) : list jsstring :=
  match List.find (fun e => bool_decide (e.1 = p)) FIELD_SYNONYMS with
  | Some e => e.2
  | None => []
  end.

(** The property a header is matched with, whether it is still free or not. *)
Definition hitOf (header : jsstring) : option prop :=
  firstHit (normalizeName header) FIELD_SYNONYMS.

(** One call of the [forEach] callback on [(header, idx)]: at the first hit
    the property is recorded when it is not used yet, and the callback
    returns in either case. *)
Definition detectStep (st : gmap nat prop * gset prop)
    (idx : nat) (header : jsstring) : gmap nat prop * gset prop :=
  match hitOf header with
  | Some p =>
      if decide (p ∈ st.2) then st
      else (<[idx := p]> st.1, {[p]} ∪ st.2)
  | None => st
  end.

Fixpoint detectLoop (headers : list jsstring) (idx : nat)
    (st : gmap nat prop * gset prop) : gmap nat prop * gset prop :=
  match headers with
  | [] => st
  | header :: headers' => detectLoop headers' (S idx) (detectStep st idx header)
  end.

Definition detectMapping (headers : list jsstring) : gmap nat prop :=
  (detectLoop headers 0 (∅, ∅)).1.

(** ** Record normaliser ([normaliseUrl], [extractDomain]) *)

(** White space and line terminators removed by [String.prototype.trim],
    among the Latin-1 code units: TAB, LF, VT, FF, CR, SP and NBSP. *)
Definition isSpace (c : ascii) : bool :=
  in_range 9 13 c || eqc c " " || eqc c "160".

Fixpoint trimStart (s : jsstring) : jsstring :=
  match s with
  | [] => []
  | c :: s' => if isSpace c then trimStart s' else s
  end.

Definition trimEnd (s : jsstring) : jsstring :=
  reverse (trimStart (reverse s)).

Definition trim (s : jsstring) : jsstring := trimEnd (trimStart s).

(** Canonicalisation of a code unit under the [i] flag (upper-casing).  The
    upper-case forms of U+00B5 and U+00FF lie outside Latin-1 and are the
    canonical form of no Latin-1 code unit, so they are left in place. *)
Definition regexCanon (c : ascii) : ascii :=
  if in_range 97 122 c || in_range 224 246 c || in_range 248 254 c
  then ascii_of_N (N_of_ascii c - 32)
  else c.

Fixpoint startsWithCI (p s : jsstring) : bool :=
  match p, s with
  | [], _ => true
  | _ :: _, [] => false
  | a :: p', b :: s' => eqc (regexCanon a) (regexCanon b) && startsWithCI p' s'
  end.

(** [/^https?:\/\//i.test(s)] *)
Definition hasScheme (s : jsstring) : bool :=
  startsWithCI (str "http://") s || startsWithCI (str "https://") s.

(** [s.replace(/\/$/, '')]: one slash at the very end is removed. *)
Definition stripSlash (s : jsstring) : jsstring :=
  match reverse s with
  | c :: r => if eqc c SLASH then reverse r else s
  | [] => s
  end.

Definition normaliseUrl (url : jsstring) : jsstring :=
  if negb (truthy url) then []
  else
    let trimmed := trim url in
    let trimmed :=
      if truthy trimmed && negb (hasScheme trimmed)
      then str "https://" ++ trimmed
      else trimmed in
    stripSlash trimmed.

(** The last character is neither white space nor a slash. *)
Definition endsClean (s : jsstring) : bool :=
  match last s with
  | Some c => negb (isSpace c) && negb (eqc c SLASH)
  | None => false
  end.

(** The strings [normaliseUrl] leaves as they are (see
    [normaliseUrl_fixed_point]): the empty string, and the strings that
    begin with the scheme and end cleanly. *)
Definition stable (s : jsstring) : bool :=
  negb (truthy s) || (hasScheme s && endsClean s).

(** The number of white space characters of a string. *)
Definition countSpaces (s : jsstring) : nat := length (List.filter isSpace s).

(** [s.split(sep)] for a one-character separator. *)
Fixpoint split_loop (sep : ascii) (s cur : jsstring) : list jsstring :=
  match s with
  | [] => [cur]
  | c :: s' =>
      if eqc c sep then cur :: split_loop sep s' []
      else split_loop sep s' (cur ++ [c])
  end.

Definition split (sep : ascii) (s : jsstring) : list jsstring :=
  split_loop sep s [].

(** [arr.slice(-n)] *)
Definition sliceLast {A} (n : nat) (l : list A) : list A :=
  drop (length l - n) l.

Definition secondLevelTlds : list jsstring :=
  [str "co"; str "com"; str "gov"; str "ac"; str "edu"; str "net"; str "org"].

(** A credential object as [parseFile] builds it. *)
Record entry : Set := mkEntry {
  title : jsstring;
  url : jsstring;
  username : jsstring;
  password : jsstring;
  notes : jsstring;
  otpAuth : jsstring;
  domain : jsstring
}.

Definition emptyEntry : entry := mkEntry [] [] [] [] [] [] [].

(** [obj[prop] = v] *)
Definition setProp (obj : entry) (p : prop) (v : jsstring) : entry :=
  match p with
  | p_title => mkEntry v (url obj) (username obj) (password obj) (notes obj) (otpAuth obj) (domain obj)
  | p_url => mkEntry (title obj) v (username obj) (password obj) (notes obj) (otpAuth obj) (domain obj)
  | p_username => mkEntry (title obj) (url obj) v (password obj) (notes obj) (otpAuth obj) (domain obj)
  | p_password => mkEntry (title obj) (url obj) (username obj) v (notes obj) (otpAuth obj) (domain obj)
  | p_notes => mkEntry (title obj) (url obj) (username obj) (password obj) v (otpAuth obj) (domain obj)
  | p_otpAuth => mkEntry (title obj) (url obj) (username obj) (password obj) (notes obj) v (domain obj)
  end.

Definition getProp (obj : entry) (p : prop) : jsstring :=
  match p with
  | p_title => title obj | p_url => url obj | p_username => username obj
  | p_password => password obj | p_notes => notes obj | p_otpAuth => otpAuth obj
  end.

(** The [for (let col = 0; col < row.length; col++)] loop over the cells
    that are left, [col] being the index of the first of them. *)
Fixpoint mapFields (mapping : gmap nat prop) (cells : list jsstring)
    (col : nat) (obj : entry) : entry :=
  match cells with
  | [] => obj
  | cell :: cells' =>
      match mapping !! col with
      | None => mapFields mapping cells' (S col) obj
      | Some p => mapFields mapping cells' (S col) (setProp obj p (orElse cell []))
      end
  end.

Section Pipeline.

(** The platform's URL parser, which is not part of the repository:
    [new URL(s).hostname], or [None] where the constructor throws. *)
Variable URL_hostname : jsstring -> option jsstring.

Definition extractDomain (urlString : jsstring) : jsstring :=
  match URL_hostname urlString with
  | None => []
  | Some hostname =>
      let host := toLowerCase hostname in
      let parts := split DOT host in
      if bool_decide (length parts <= 2) then host
      else
        let secondLast := nth (length parts - 2) parts [] in
        if bool_decide (secondLast ∈ secondLevelTlds)
        then join [DOT] (sliceLast 3 parts)
        else join [DOT] (sliceLast 2 parts)
  end.

(** The body of the row loop after the empty-row test. *)
Definition buildEntry (mapping : gmap nat prop) (row : list jsstring) : entry :=
  let obj := mapFields mapping row 0 emptyEntry in
  let u := normaliseUrl (url obj) in
  let d := extractDomain u in
  let name :=
    if truthy (username obj) && existsb (eqc AT) (username obj)
    then toLowerCase (username obj)
    else username obj in
  mkEntry (title obj) u name (password obj) (notes obj) (otpAuth obj) d.

(** [row.every((cell) => cell === '')] *)
Definition isEmptyRow (row : list jsstring) : bool :=
  forallb (fun cell => negb (truthy cell)) row.

Fixpoint rowsLoop (mapping : gmap nat prop) (rows : list (list jsstring))
    (acc : list entry) : list entry :=
  match rows with
  | [] => acc
  | row :: rows' =>
      if isEmptyRow row then rowsLoop mapping rows' acc
      else rowsLoop mapping rows' (acc ++ [buildEntry mapping row])
  end.

(** [reader.onload]: what the promise of [parseFile] resolves to once the
    text of the file has been read. *)
Definition parseText (text : jsstring) : list entry :=
  match parseCSV text with
  | [] => []
  | header :: rows =>
      let headers := (fun h => trim (orElse h [])) <$> header in
      let mapping := detectMapping headers in
      rowsLoop mapping rows []
  end.

(** [parseFile(file)], the file being absent or read as text. *)
Definition parseFile (file : option jsstring) : list entry :=
  match file with
  | None => []
  | Some text => parseText text
  end.

End Pipeline.

(** ** Comparator ([computeMissing]) *)

(** The template literal that builds the key of an entry. *)
Definition entryKey (strict : bool) (e : entry) : jsstring :=
  if strict
  then toLowerCase (url e) ++ [PIPE] ++ toLowerCase (orElse (username e) [])
  else toLowerCase (domain e) ++ [PIPE] ++ toLowerCase (orElse (username e) []).

(** The first [forEach]: the [Set] of the keys of [listB]. *)
Definition keySet (strict : bool) (l : list entry) : gset jsstring :=
  foldl (fun set e => {[entryKey strict e]} ∪ set) ∅ l.

Definition computeMissing (listA listB : list entry) (strict : bool) : list entry :=
  let set := keySet strict listB in
  foldl (fun missing e =>
           if decide (entryKey strict e ∈ set) then missing
           else missing ++ [e]) [] listA.

(** The elements of [l] at the positions that [mask] marks. *)
Fixpoint pick {A} (mask : list bool) (l : list A) : list A :=
  match mask, l with
  | b :: mask', x :: l' => if b then x :: pick mask' l' else pick mask' l'
  | _, _ => []
  end.

(** Two entries that agree on every property but [password]. *)
Definition samePublic (e e' : entry) : Prop :=
  title e = title e' ∧ url e = url e' ∧ username e = username e' ∧
  notes e = notes e' ∧ otpAuth e = otpAuth e' ∧ domain e = domain e'.

(** ** Serialiser ([generateCsv]) *)

(** The test of the character class of [escape]: comma, double quote or
    line feed. *)
Definition needsQuoting (s : jsstring) : bool :=
  existsb (fun c => eqc c COMMA || eqc c QUOTE || eqc c LF) s.

(** Replacement of every double quote by two of them. *)
Definition doubleQuotes (s : jsstring) : jsstring :=
  flat_map (fun c => if eqc c QUOTE then [QUOTE; QUOTE] else [c]) s.

(** The inner function [escape].  Its [value == null] case is left out: the
    properties of an entry are strings. *)
Definition escape (value : jsstring) : jsstring :=
  if needsQuoting value
  then [QUOTE] ++ doubleQuotes value ++ [QUOTE]
  else value.

Definition HEADER_LINE : jsstring := str "title,url,username,password,notes,otpAuth".

Definition entryLine (e : entry) : jsstring :=
  join [COMMA]
    [escape (title e); escape (url e); escape (username e);
     escape (password e); escape (notes e); []].

Definition generateCsv (entries : list entry) : jsstring :=
  let lines := foldl (fun lines e => lines ++ [entryLine e]) [HEADER_LINE] entries in
  join [CR; LF] lines.

(** ** Round trip through the serialiser *)

(** The five properties [generateCsv] writes, in column order. *)
Definition fiveFields (e : entry) : list jsstring :=
  [title e; url e; username e; password e; notes e].

(** The cells of the line [generateCsv] writes for an entry whose fields
    need no quoting. *)
Definition rowOf (e : entry) : list jsstring := fiveFields e ++ [[]].

(** No field of the entry contains a comma, a double quote or a line feed. *)
Definition noSpecial (e : entry) : bool :=
  forallb (fun f => negb (needsQuoting f)) (fiveFields e).

(** A character the tokenizer copies into the field outside quotes. *)
Definition plainChar (c : ascii) : bool :=
  negb (eqc c QUOTE || eqc c COMMA || eqc c LF || eqc c CR).

Definition plainField (f : jsstring) : bool := forallb plainChar f.

(** No field contains a comma, a double quote, a line feed or a carriage
    return, and not all five fields are empty. *)
Definition survivesExport (e : entry) : bool :=
  forallb plainField (fiveFields e) && existsb truthy (fiveFields e).

(** ** Writing and reading lines of fields *)

(** The line terminators the tokenizer accepts outside quotes. *)
Definition terminators : list jsstring := [[LF]; [CR]; [CR; LF]].

(** A line of fields the way [generateCsv] writes one: every field through
    [escape], commas in between. *)
Definition renderLine (fields : list jsstring) : jsstring :=
  join [COMMA] (escape <$> fields).

(** Lines with the terminator each of them is followed by.  Does a line
    ended by a lone carriage return come right before a line that is a
    single empty field ended by a line feed?  The two characters would then
    meet and be read as one terminator. *)
Fixpoint splitsCrLf (lts : list (list jsstring * jsstring)) : bool :=
  match lts with
  | [] => false
  | lt :: rest =>
      match rest with
      | [] => false
      | lt' :: _ =>
          (bool_decide (lt.2 = [CR]) && bool_decide (lt'.1 = [[]])
           && bool_decide (lt'.2 = [LF]))
          || splitsCrLf rest
      end
  end.

(** A field [escape] writes in a form the tokenizer reads back: it is
    quoted, or it has no carriage return either. *)
Definition tokenizable (f : jsstring) : bool :=
  needsQuoting f || plainField f.

(** Every field of the entry is tokenizable and not all five are empty. *)
Definition exportable (e : entry) : bool :=
  forallb tokenizable (fiveFields e) && existsb truthy (fiveFields e).

(** ** Sample data *)

(** A URL parser that rejects every input. *)
Definition rejectAll : jsstring → option jsstring := fun _ => None.


(** Two entries for the same account whose url and username differ in
    letter case only. *)
Definition alice : entry :=
  mkEntry (str "Mail") (str "https://Mail.example.com") (str "Alice")
          (str "s3cret") (str "work") [] (str "example.com").
Definition alice' : entry :=
  mkEntry (str "mail") (str "https://mail.example.com") (str "alice")
          (str "hunter2") [] [] (str "example.com").


(** [alice] with another password. *)
Definition aliceRekeyed : entry :=
  mkEntry (str "Mail") (str "https://Mail.example.com") (str "Alice")
          (str "correct horse") (str "work") [] (str "example.com").

(** An entry whose url is not in normal form and whose username is empty. *)
Definition bare : entry :=
  mkEntry (str "site") (str "example.com/") [] (str "pw") [] [] [].

(** An entry with a carriage return in its title. *)
Definition twoLines : entry :=
  mkEntry (str "a" ++ [CR] ++ str "b") [] [] (str "pw") [] [] [].

(** A small file: a header row and one data row whose password cell has
    spaces around it and a capital letter. *)
Definition smallFile : jsstring :=
  str "login,password,url" ++ [LF] ++ str "Bob@X.org, P@ss Word ,x.org".

(** A URL parser that finds the same host name in every input. *)
Definition alwaysHost (host : jsstring) : jsstring → option jsstring :=
  fun _ => Some host.

(** Three lines with a comma, a quote and a line feed inside fields, an
    empty line in the middle and fields of differing number. *)
Definition trickyLines : list (list jsstring) :=
  [ [str "a,b"; str "x" ++ [QUOTE] ++ str "y"];
    [[]];
    [str "c" ++ [LF] ++ str "d"; []; str "e" ++ [CR] ++ str ",f"] ].

(** The same lines and one more, each with a terminator of its own. *)
Definition trickyTerminated : list (list jsstring * jsstring) :=
  [ ([str "a,b"; str "x" ++ [QUOTE] ++ str "y"], [CR]);
    ([[]], [CR; LF]);
    ([str "c" ++ [LF] ++ str "d"; []; str "e" ++ [CR] ++ str ",f"], [LF]);
    ([str "z"], [CR]) ].

(** An entry with a comma in its title, quotes and a line break in its
    notes and a carriage return next to a comma in its password. *)
Definition awkward : entry :=
  mkEntry (str "Bank, savings") (str "https://bank.example") (str "me@bank.example")
          (str "p" ++ [CR] ++ str ",w") (str "say " ++ [QUOTE] ++ str "hi" ++ [QUOTE; LF] ++ str "bye")
          (str "otpauth://x") (str "bank.example").

(** The header row of an Apple Passwords export, which is also the header
    line [generateCsv] writes. *)
Definition appleHeaders : list jsstring :=
  [str "title"; str "url"; str "username"; str "password"; str "notes";
   str "otpAuth"].

Definition frenchHeaders : list jsstring :=
  [str "Nom"; str "Site"; str "Identifiant"; str "Mot de passe"; str "extra"].

(** * Properties *)

(** ** The tokenizer *)

(** C7: the input made of [a], a comma, the quoted field [b,c], a comma and
    the quoted field [d], doubled quote, [e], followed by a newline, is
    tokenized into exactly one row with three fields: [a], then [b,c], then
    [d], one literal double-quote, [e].  No further row is produced. *)
Theorem parseCSV_quoted_example :
  parseCSV (str "a," ++ [QUOTE] ++ str "b,c" ++ [QUOTE] ++ str "," ++
            [QUOTE] ++ str "d" ++ [QUOTE; QUOTE] ++ str "e" ++ [QUOTE] ++ [LF])
  = [[str "a"; str "b,c"; str "d" ++ [QUOTE] ++ str "e"]].
Proof. vm_compute. reflexivity. Qed.

(** ** The comparator *)

Section Comparator.

Variable strict : bool.

Lemma keySet_foldl (l : list entry) (acc : gset jsstring) (k : jsstring) :
  k ∈ foldl (fun set e => {[entryKey strict e]} ∪ set) acc l
  ↔ k ∈ acc ∨ k ∈ entryKey strict <$> l.
Proof.
  revert acc. induction l as [|e l IH]; intros acc; simpl.
  - rewrite elem_of_nil. tauto.
  - rewrite IH, elem_of_union, elem_of_singleton, elem_of_cons. tauto.
Qed.

Lemma elem_of_keySet (l : list entry) (k : jsstring) :
  k ∈ keySet strict l ↔ k ∈ entryKey strict <$> l.
Proof.
  unfold keySet. rewrite keySet_foldl, elem_of_empty. tauto.
Qed.

Lemma missing_foldl (set : gset jsstring) (l acc : list entry) :
  foldl (fun missing e =>
           if decide (entryKey strict e ∈ set) then missing
           else missing ++ [e]) acc l
  = acc ++ filter (fun e => entryKey strict e ∉ set) l.
Proof.
  revert acc. induction l as [|e l IH]; intros acc; simpl.
  - by rewrite app_nil_r.
  - rewrite IH, filter_cons. destruct (decide (entryKey strict e ∈ set)).
    + rewrite decide_False by tauto. done.
    + rewrite decide_True by done. by rewrite <- app_assoc.
Qed.

Lemma computeMissing_keySet (listA listB : list entry) :
  computeMissing listA listB strict
  = filter (fun e => entryKey strict e ∉ keySet strict listB) listA.
Proof. unfold computeMissing. by rewrite missing_foldl. Qed.

Lemma computeMissing_filter (listA listB : list entry) :
  computeMissing listA listB strict
  = filter (fun e => entryKey strict e ∉ entryKey strict <$> listB) listA.
Proof.
  rewrite computeMissing_keySet. apply list_filter_iff.
  intros e. by rewrite elem_of_keySet.
Qed.

End Comparator.

Lemma orElse_empty (s : jsstring) : orElse s [] = s.
Proof. by destruct s. Qed.

Lemma filter_pick {A} (P : A → Prop) `{!∀ x, Decision (P x)} (l : list A) :
  filter P l = pick ((fun x => bool_decide (P x)) <$> l) l.
Proof.
  induction l as [|x l IH]; [done|].
  rewrite filter_cons, IH, fmap_cons. simpl.
  destruct (decide (P x)).
  - by rewrite bool_decide_eq_true_2.
  - by rewrite bool_decide_eq_false_2.
Qed.

Lemma samePublic_key (strict : bool) (e e' : entry) :
  samePublic e e' → entryKey strict e = entryKey strict e'.
Proof.
  intros (_ & Hu & Hn & _ & _ & Hd). unfold entryKey.
  by rewrite Hu, Hn, Hd.
Qed.

Lemma samePublic_keys (strict : bool) (l l' : list entry) :
  Forall2 samePublic l l' → entryKey strict <$> l = entryKey strict <$> l'.
Proof.
  induction 1 as [|e e' l l' He _ IH]; [done|].
  by rewrite !fmap_cons, IH, (samePublic_key strict e e').
Qed.




Lemma filter_known_keys (strict : bool) (l listB : list entry) :
  l ⊆ listB →
  filter (fun e => entryKey strict e ∉ entryKey strict <$> listB) l = [].
Proof.
  induction l as [|e l IH]; intros Hsub; [done|].
  rewrite filter_cons, decide_False.
  - apply IH. set_solver.
  - intros Hn. apply Hn, list_elem_of_fmap. exists e. set_solver.
Qed.

(** C3: [computeMissing] returns the entries of [listA], in their order and
    with repetitions kept, whose key is the key of no entry of [listB]; the
    key is the lower-cased url (strict) or domain (otherwise), the separator
    and the lower-cased username. *)
Theorem computeMissing_exact (listA listB : list entry) (strict : bool) :
  computeMissing listA listB strict
  = filter (fun a => Forall (fun b => entryKey strict b ≠ entryKey strict a) listB)
           listA
  ∧ (∀ e, entryKey true e
          = toLowerCase (url e) ++ [PIPE] ++ toLowerCase (username e))
  ∧ (∀ e, entryKey false e
          = toLowerCase (domain e) ++ [PIPE] ++ toLowerCase (username e)).
Proof.
  split; [|split; intros e; unfold entryKey; by rewrite orElse_empty].
  rewrite computeMissing_filter. apply list_filter_iff. intros a.
  rewrite list_elem_of_fmap, Forall_forall. split.
  - intros Hno b Hb Heq. apply Hno. by exists b.
  - intros Hall (b & Heq & Hb). by apply (Hall b).
Qed.

(** C10: comparing a list with itself reports nothing as missing, in both
    modes. *)
Theorem computeMissing_self (l : list entry) (strict : bool) :
  computeMissing l l strict = [].
Proof. rewrite computeMissing_filter. by apply filter_known_keys. Qed.




(** ** The column mapper *)

Lemma detectLoop_app (hs hs' : list jsstring) (idx : nat)
    (st : gmap nat prop * gset prop) :
  detectLoop (hs ++ hs') idx st
  = detectLoop hs' (idx + length hs) (detectLoop hs idx st).
Proof.
  revert idx st. induction hs as [|h hs IH]; intros idx st; simpl.
  - by rewrite Nat.add_0_r.
  - rewrite IH. f_equal. lia.
Qed.

(** What the loop has recorded after the headers [hs]: column [i] carries
    [p] exactly when its header is matched with [p] and no header before it
    is; [p] is used exactly when some header is matched with it. *)
Lemma detectLoop_spec (hs : list jsstring) :
  let st := detectLoop hs 0 (∅, ∅) in
  (∀ i p, st.1 !! i = Some p ↔
     ∃ h, hs !! i = Some h ∧ hitOf h = Some p ∧
          ∀ j h', j < i → hs !! j = Some h' → hitOf h' ≠ Some p)
  ∧ (∀ p, p ∈ st.2 ↔ ∃ j h', hs !! j = Some h' ∧ hitOf h' = Some p).
Proof.
  induction hs as [|h hs IH] using rev_ind; simpl.
  { split.
    - intros i p. rewrite lookup_empty. split; [done|].
      intros (h & Hh & _). by rewrite lookup_nil in Hh.
    - intros p. rewrite elem_of_empty. split; [done|].
      intros (j & h & Hh & _). by rewrite lookup_nil in Hh. }
  rewrite detectLoop_app. simpl in *.
  destruct (detectLoop hs 0 (∅, ∅)) as [m used] eqn:Hst. simpl in *.
  destruct IH as [IHm IHu].
  assert (Hlen : ∀ i p, m !! i = Some p → i < length hs).
  { intros i p Hi. apply IHm in Hi as (h0 & Hh0 & _).
    by apply lookup_lt_Some in Hh0. }
  assert (Hold : ∀ i p, i < length hs →
    (∃ h0, (hs ++ [h]) !! i = Some h0 ∧ hitOf h0 = Some p ∧
           ∀ j h', j < i → (hs ++ [h]) !! j = Some h' → hitOf h' ≠ Some p)
    ↔ m !! i = Some p).
  { intros i p Hi. rewrite IHm. rewrite lookup_app_l by done.
    split; intros (h0 & Hh0 & Hhit & Hno); exists h0; repeat split; try done.
    - intros j h' Hj Hh'. apply (Hno j h' Hj). rewrite lookup_app_l by lia. done.
    - intros j h' Hj Hh'. rewrite lookup_app_l in Hh' by lia. by apply (Hno j h'). }
  assert (Hnew : ∀ p,
    (∃ h0, (hs ++ [h]) !! length hs = Some h0 ∧ hitOf h0 = Some p ∧
           ∀ j h', j < length hs → (hs ++ [h]) !! j = Some h' → hitOf h' ≠ Some p)
    ↔ hitOf h = Some p ∧ p ∉ used).
  { intros p. rewrite list_lookup_middle by done. split.
    - intros (h0 & [= <-] & Hhit & Hno). split; [done|].
      rewrite IHu. intros (j & h' & Hh' & Hhit').
      apply (Hno j h'); [by apply lookup_lt_Some in Hh'| |done].
      rewrite lookup_app_l; [done|by apply lookup_lt_Some in Hh'].
    - intros [Hhit Hfree]. exists h. repeat split; [done|].
      intros j h' Hj Hh' Hhit'. apply Hfree, IHu. exists j, h'.
      rewrite lookup_app_l in Hh' by done. done. }
  assert (Hbeyond : ∀ i p, length hs < i →
    ¬ ∃ h0, (hs ++ [h]) !! i = Some h0 ∧ hitOf h0 = Some p ∧
           ∀ j h', j < i → (hs ++ [h]) !! j = Some h' → hitOf h' ≠ Some p).
  { intros i p Hi (h0 & Hh0 & _). apply lookup_lt_Some in Hh0.
    rewrite length_app in Hh0. simpl in Hh0. lia. }
  assert (Hused : ∀ p,
    (∃ j h', (hs ++ [h]) !! j = Some h' ∧ hitOf h' = Some p)
    ↔ p ∈ used ∨ hitOf h = Some p).
  { intros p. rewrite IHu. split.
    - intros (j & h' & Hh' & Hhit).
      destruct (decide (j < length hs)) as [Hj|Hj].
      + left. exists j, h'. by rewrite lookup_app_l in Hh'.
      + right. rewrite lookup_app_r in Hh' by lia.
        destruct (j - length hs) as [|k]; simpl in Hh'; [|by rewrite lookup_nil in Hh'].
        by injection Hh' as ->.
    - intros [(j & h' & Hh' & Hhit)|Hhit].
      + exists j, h'. split; [|done]. apply lookup_app_l_Some. done.
      + exists (length hs), h. by rewrite list_lookup_middle. }
  unfold detectStep; simpl.
  destruct (hitOf h) as [q|] eqn:Hq; [destruct (decide (q ∈ used)) as [Hin|Hin]|];
    simpl; split.
  - intros i p. destruct (lt_eq_lt_dec i (length hs)) as [[Hi| ->]|Hi].
    + by rewrite Hold.
    + rewrite Hnew. split.
      * intros Hm. apply Hlen in Hm. lia.
      * intros [[= <-] Hfree]. done.
    + split; [intros Hm; apply Hlen in Hm; lia|]. intros H. by apply Hbeyond in H.
  - intros p. rewrite Hused. split; [tauto|]. intros [?|[= <-]]; done.
  - intros i p. destruct (lt_eq_lt_dec i (length hs)) as [[Hi| ->]|Hi].
    + rewrite Hold by done. rewrite lookup_insert_ne by lia. done.
    + rewrite Hnew, lookup_insert_eq. split.
      * intros [= <-]. done.
      * intros [[= <-] _]. done.
    + rewrite lookup_insert_ne by lia.
      split; [intros Hm; apply Hlen in Hm; lia|]. intros H. by apply Hbeyond in H.
  - intros p. rewrite Hused, elem_of_union, elem_of_singleton. split.
    + intros [->|?]; [by right|by left].
    + intros [?|[= <-]]; [by right|by left].
  - intros i p. destruct (lt_eq_lt_dec i (length hs)) as [[Hi| ->]|Hi].
    + by rewrite Hold.
    + rewrite Hnew. split.
      * intros Hm. apply Hlen in Hm. lia.
      * intros [[=] _].
    + split; [intros Hm; apply Hlen in Hm; lia|]. intros H. by apply Hbeyond in H.
  - intros p. rewrite Hused. split; [tauto|]. intros [?|[=]]; done.
Qed.

(** The mapping [detectMapping] returns, column by column. *)
Lemma detectMapping_lookup (headers : list jsstring) (i : nat) (p : prop) :
  detectMapping headers !! i = Some p ↔
  ∃ h, headers !! i = Some h ∧ hitOf h = Some p ∧
       ∀ j h', j < i → headers !! j = Some h' → hitOf h' ≠ Some p.
Proof. apply (detectLoop_spec headers). Qed.

(** Each property is given to at most one column. *)
Lemma detectMapping_inj (headers : list jsstring) (i j : nat) (p : prop) :
  detectMapping headers !! i = Some p →
  detectMapping headers !! j = Some p → i = j.
Proof.
  rewrite !detectMapping_lookup.
  intros (h & Hh & Hhit & Hno) (h' & Hh' & Hhit' & Hno').
  destruct (lt_eq_lt_dec i j) as [[Hlt|Heq]|Hlt]; [|done|].
  - by destruct (Hno' i h Hlt Hh).
  - by destruct (Hno j h' Hlt Hh').
Qed.

Lemma startsWith_spec (p s : jsstring) :
  startsWith p s = true ↔ ∃ t, s = p ++ t.
Proof.
  revert s. induction p as [|a p IH]; intros s; simpl.
  - split; [by exists s|done].
  - destruct s as [|b s].
    + split; [done|]. by intros (t & ?).
    + unfold eqc. rewrite andb_true_iff, bool_decide_eq_true, IH. split.
      * intros [-> (t & ->)]. by exists t.
      * intros (t & [= -> ->]). split; [done|]. by exists t.
Qed.

Lemma includes_spec (s sub : jsstring) :
  includes s sub = true ↔ ∃ pre post, s = pre ++ sub ++ post.
Proof.
  induction s as [|c s IH]; simpl; rewrite orb_true_iff, startsWith_spec.
  - split.
    + intros [(t & Ht)|?]; [|done]. by exists [], t.
    + intros (pre & post & H). left. exists post.
      destruct pre; [done|discriminate].
  - rewrite IH. split.
    + intros [(t & Ht)|(pre & post & ->)]; [by exists [], t|].
      by exists (c :: pre), post.
    + intros ([|c' pre] & post & H).
      * left. by exists post.
      * right. injection H as -> ->. by exists pre, post.
Qed.

(** Every header that contains [username] also contains [name], a synonym
    of [title], which the table lists first: the synonym [username] of the
    property [username] can never be the first hit. *)
Lemma username_shadowed (header : jsstring) :
  includes (normalizeName header) (normalizeName (str "username")) = true →
  hitOf header = Some p_title.
Proof.
  intros Hinc.
  assert (Hname : includes (normalizeName header) (normalizeName (str "name")) = true).
  { apply includes_spec in Hinc as (pre & post & ->).
    apply includes_spec. exists (pre ++ str "user"), post.
    rewrite <- app_assoc. reflexivity. }
  unfold hitOf, FIELD_SYNONYMS.
  cbn [firstHit hitsSynonym existsb].
  by rewrite Hname, orb_true_r.
Qed.

(** C1: on the header row of an Apple Passwords export the column
    [username] stays unmapped, although its header contains a synonym of the
    property [username] and no column at all is given that property: the
    header is first matched with [title] (through [name]), which column 0
    has taken, and the callback returns. *)
Theorem detectMapping_drops_username :
  detectMapping appleHeaders !! 2 = None
  ∧ appleHeaders !! 2 = Some (str "username")
  ∧ hitsSynonym (normalizeName (str "username")) (synonymsOf p_username) = true
  ∧ hitOf (str "username") = Some p_title
  ∧ detectMapping appleHeaders !! 0 = Some p_title
  ∧ (∀ j, detectMapping appleHeaders !! j ≠ Some p_username).
Proof.
  repeat split; try (vm_compute; reflexivity).
  intros j. rewrite detectMapping_lookup. intros (h & Hh & Hhit & _).
  do 6 (destruct j as [|j]; [injection Hh as <-; vm_compute in Hhit; discriminate|]).
  discriminate Hh.
Qed.

(** C6, as stated, fails: column 2 ([Identifiant]) is not mapped to
    [username]. *)
Lemma detectMapping_french_not_username :
  ¬ (detectMapping frenchHeaders !! 0 = Some p_title
     ∧ detectMapping frenchHeaders !! 1 = Some p_url
     ∧ detectMapping frenchHeaders !! 2 = Some p_username
     ∧ detectMapping frenchHeaders !! 3 = Some p_password
     ∧ detectMapping frenchHeaders !! 4 = None).
Proof. intros (_ & _ & H & _). vm_compute in H. discriminate H. Qed.

(** C6, amended: on the headers [Nom], [Site], [Identifiant],
    [Mot de passe], [extra] the mapper gives column 0 to [title], column 1
    to [url] and column 3 to [password]; columns 2 and 4 stay unmapped,
    [Identifiant] containing no synonym of any property. *)
Theorem detectMapping_french :
  detectMapping frenchHeaders !! 0 = Some p_title
  ∧ detectMapping frenchHeaders !! 1 = Some p_url
  ∧ detectMapping frenchHeaders !! 2 = None
  ∧ detectMapping frenchHeaders !! 3 = Some p_password
  ∧ detectMapping frenchHeaders !! 4 = None
  ∧ hitOf (str "Identifiant") = None
  ∧ dom (detectMapping frenchHeaders) = {[0; 1; 3]}.
Proof. repeat split; vm_compute; reflexivity. Qed.

(** ** The serialiser *)

Lemma join_snoc (sep : jsstring) (l : list jsstring) (x y : jsstring) :
  join sep ((x :: l) ++ [y]) = join sep (x :: l) ++ sep ++ y.
Proof.
  revert x. induction l as [|z l IH]; intros x; [done|].
  change (x ++ sep ++ join sep ((z :: l) ++ [y])
          = (x ++ sep ++ join sep (z :: l)) ++ sep ++ y).
  by rewrite IH, <- !app_assoc.
Qed.

Lemma lines_foldl (entries : list entry) (acc : list jsstring) :
  foldl (fun lines e => lines ++ [entryLine e]) acc entries
  = acc ++ (entryLine <$> entries).
Proof.
  revert acc. induction entries as [|e entries IH]; intros acc; simpl.
  - by rewrite app_nil_r.
  - by rewrite IH, <- app_assoc.
Qed.

Lemma generateCsv_join (entries : list entry) :
  generateCsv entries = join [CR; LF] (HEADER_LINE :: (entryLine <$> entries)).
Proof. unfold generateCsv. by rewrite lines_foldl. Qed.

Lemma generateCsv_snoc (entries : list entry) (e : entry) :
  generateCsv (entries ++ [e]) = generateCsv entries ++ [CR; LF] ++ entryLine e.
Proof.
  rewrite !generateCsv_join, fmap_app.
  apply (join_snoc _ (entryLine <$> entries) HEADER_LINE (entryLine e)).
Qed.

Lemma entryLine_unfold (e : entry) :
  entryLine e
  = escape (title e) ++ [COMMA] ++ escape (url e) ++ [COMMA] ++
    escape (username e) ++ [COMMA] ++ escape (password e) ++ [COMMA] ++
    escape (notes e) ++ [COMMA].
Proof. unfold entryLine. simpl. reflexivity. Qed.

Lemma needsQuoting_spec (v : jsstring) :
  needsQuoting v = true ↔ COMMA ∈ v ∨ QUOTE ∈ v ∨ LF ∈ v.
Proof.
  unfold needsQuoting. rewrite existsb_exists. split.
  - intros (c & Hin & Hc). apply list_elem_of_In in Hin. unfold eqc in Hc.
    rewrite !orb_true_iff, !bool_decide_eq_true in Hc.
    destruct Hc as [[->| ->]| ->]; tauto.
  - intros H.
    assert (∃ c, c ∈ v ∧ (c = COMMA ∨ c = QUOTE ∨ c = LF)) as (c & Hin & Hc)
      by (destruct H as [?|[?|?]]; eauto).
    exists c. split; [by apply list_elem_of_In|].
    unfold eqc. rewrite !orb_true_iff, !bool_decide_eq_true. tauto.
Qed.

Lemma doubleQuotes_length (v : jsstring) : length v ≤ length (doubleQuotes v).
Proof.
  induction v as [|c v IH]; simpl; [done|].
  rewrite length_app. destruct (eqc c QUOTE); simpl; lia.
Qed.

Lemma generateCsv_last (entries : list entry) :
  ∃ c, last (generateCsv entries) = Some c ∧ c ≠ LF.
Proof.
  destruct entries as [|e entries _] using rev_ind.
  - exists "h". split; [vm_compute; reflexivity|discriminate].
  - exists COMMA. split; [|discriminate].
    rewrite generateCsv_snoc, entryLine_unfold, !app_assoc. apply last_snoc.
Qed.

(** C8: the output is the header line followed by one line per entry,
    joined by CR LF, and never ends with a line terminator; every line is
    the five escaped fields and an empty sixth one, separated by commas; a
    field is wrapped in double quotes, its own double quotes doubled,
    exactly when it contains a comma, a double quote or a line feed, and is
    written as it is otherwise. *)
Theorem generateCsv_format (entries : list entry) :
  generateCsv entries = join [CR; LF] (HEADER_LINE :: (entryLine <$> entries))
  ∧ HEADER_LINE = str "title,url,username,password,notes,otpAuth"
  ∧ HEADER_LINE `prefix_of` generateCsv entries
  ∧ ¬ [CR; LF] `suffix_of` generateCsv entries
  ∧ ¬ [LF] `suffix_of` generateCsv entries
  ∧ (∀ e, entryLine e
          = escape (title e) ++ [COMMA] ++ escape (url e) ++ [COMMA] ++
            escape (username e) ++ [COMMA] ++ escape (password e) ++ [COMMA] ++
            escape (notes e) ++ [COMMA])
  ∧ (∀ v, escape v = [QUOTE] ++ doubleQuotes v ++ [QUOTE]
          ↔ COMMA ∈ v ∨ QUOTE ∈ v ∨ LF ∈ v)
  ∧ (∀ v, escape v = v ↔ ¬ (COMMA ∈ v ∨ QUOTE ∈ v ∨ LF ∈ v))
  ∧ (∀ c v, doubleQuotes (c :: v)
            = (if decide (c = QUOTE) then [QUOTE; QUOTE] else [c]) ++ doubleQuotes v).
Proof.
  assert (Hwrap : ∀ v, [QUOTE] ++ doubleQuotes v ++ [QUOTE] ≠ v).
  { intros v Heq. apply (f_equal length) in Heq.
    rewrite !length_app in Heq. simpl in Heq.
    pose proof (doubleQuotes_length v). lia. }
  split; [apply generateCsv_join|]. split; [done|]. split.
  { rewrite generateCsv_join. destruct (entryLine <$> entries) as [|l ls].
    - by exists [].
    - by exists ([CR; LF] ++ join [CR; LF] (l :: ls)). }
  destruct (generateCsv_last entries) as (c & Hlast & Hc).
  apply last_Some in Hlast as (body & Hbody).
  split.
  { intros [pre Hsuf]. rewrite Hbody in Hsuf.
    replace (pre ++ [CR; LF]) with ((pre ++ [CR]) ++ [LF]) in Hsuf
      by (by rewrite <- app_assoc).
    apply app_inj_tail in Hsuf as [_ ->]. done. }
  split.
  { intros [pre Hsuf]. rewrite Hbody in Hsuf.
    apply app_inj_tail in Hsuf as [_ ->]. done. }
  split; [apply entryLine_unfold|]. split; [|split].
  - intros v. rewrite <- needsQuoting_spec. unfold escape.
    destruct (needsQuoting v); split; try done.
    intros Heq. symmetry in Heq. by apply Hwrap in Heq.
  - intros v. rewrite <- needsQuoting_spec. unfold escape.
    destruct (needsQuoting v); split; try done.
    intros Heq. by apply Hwrap in Heq.
  - intros c' v. unfold doubleQuotes, eqc. simpl.
    destruct (decide (c' = QUOTE));
      [rewrite bool_decide_eq_true_2 by done
      |rewrite bool_decide_eq_false_2 by done]; done.
Qed.

(** ** The record normaliser *)

Lemma getProp_setProp (obj : entry) (p q : prop) (v : jsstring) :
  getProp (setProp obj q v) p = if decide (p = q) then v else getProp obj p.
Proof. by destruct p, q. Qed.

Section MapFields.

Variable mapping : gmap nat prop.
Variable p : prop.

(** When no column from [col] on carries [p], the loop leaves it alone. *)
Lemma mapFields_untouched (cells : list jsstring) (col : nat) (obj : entry) :
  (∀ c, col ≤ c → mapping !! c ≠ Some p) →
  getProp (mapFields mapping cells col obj) p = getProp obj p.
Proof.
  revert col obj. induction cells as [|cell cells IH]; intros col obj Hno; [done|].
  simpl. destruct (mapping !! col) as [q|] eqn:Hq.
  - rewrite IH by (intros c Hc; apply Hno; lia).
    rewrite getProp_setProp, decide_False; [done|].
    intros ->. by apply (Hno col).
  - apply IH. intros c Hc. apply Hno. lia.
Qed.

Hypothesis mapping_inj :
  ∀ i j, mapping !! i = Some p → mapping !! j = Some p → i = j.

(** The property [p] ends up holding the cell of its column. *)
Lemma mapFields_cell (cells : list jsstring) (col : nat) (obj : entry)
    (pc : nat) (cell : jsstring) :
  mapping !! pc = Some p → col ≤ pc → cells !! (pc - col) = Some cell →
  getProp (mapFields mapping cells col obj) p = cell.
Proof.
  intros Hpc. revert col obj.
  induction cells as [|cell0 cells IH]; intros col obj Hle Hcell; [done|].
  simpl. destruct (decide (col = pc)) as [->|Hne].
  - rewrite Hpc, Nat.sub_diag in *. injection Hcell as ->.
    rewrite mapFields_untouched.
    + by rewrite getProp_setProp, decide_True, orElse_empty.
    + intros c Hc Hcp. specialize (mapping_inj _ _ Hpc Hcp). lia.
  - replace (pc - col) with (S (pc - S col)) in Hcell by lia.
    destruct (mapping !! col); apply IH; (lia || done).
Qed.

End MapFields.

Lemma rowsLoop_filter (hostname : jsstring → option jsstring)
    (mapping : gmap nat prop) (rows : list (list jsstring)) (acc : list entry) :
  rowsLoop hostname mapping rows acc
  = acc ++ (buildEntry hostname mapping <$> filter (fun r => isEmptyRow r = false) rows).
Proof.
  revert acc. induction rows as [|row rows IH]; intros acc; simpl.
  - by rewrite app_nil_r.
  - rewrite filter_cons. destruct (isEmptyRow row) eqn:He.
    + rewrite decide_False by done. apply IH.
    + rewrite decide_True by done. by rewrite IH, fmap_cons, <- app_assoc.
Qed.

(** C9: (1) the entries of a parsed file are the non-empty data rows in
    order, and the password of each of them is the very cell of the column
    mapped to [password]; (2) changing only the passwords in both lists
    leaves unchanged which positions of [listA] [computeMissing] returns. *)
Theorem password_opaque :
  (∀ (hostname : jsstring → option jsstring) (text : jsstring)
     (header : list jsstring) (rows : list (list jsstring)),
     parseCSV text = header :: rows →
     let mapping := detectMapping ((fun h => trim (orElse h [])) <$> header) in
     parseFile hostname (Some text)
     = (buildEntry hostname mapping <$> filter (fun r => isEmptyRow r = false) rows)
     ∧ ∀ (row : list jsstring) (col : nat) (cell : jsstring),
         mapping !! col = Some p_password → row !! col = Some cell →
         password (buildEntry hostname mapping row) = cell)
  ∧ (∀ (listA listA' listB listB' : list entry) (strict : bool),
       Forall2 samePublic listA listA' → Forall2 samePublic listB listB' →
       ∃ mask : list bool,
         length mask = length listA
         ∧ computeMissing listA listB strict = pick mask listA
         ∧ computeMissing listA' listB' strict = pick mask listA').
Proof.
  split.
  - intros hostname text header rows Hparse mapping. split.
    + unfold parseFile, parseText. rewrite Hparse.
      by rewrite rowsLoop_filter.
    + intros row col cell Hcol Hcell. unfold buildEntry. simpl.
      apply (mapFields_cell mapping p_password) with (pc := col) (obj := emptyEntry)
        (cells := row) (col := 0); try done; [|lia|by rewrite Nat.sub_0_r].
      intros i j. apply detectMapping_inj.
  - intros listA listA' listB listB' strict HA HB.
    exists ((fun e => bool_decide (entryKey strict e ∉ entryKey strict <$> listB)) <$> listA).
    split; [by rewrite length_fmap|]. split.
    + by rewrite computeMissing_filter, filter_pick.
    + rewrite computeMissing_filter, filter_pick. f_equal.
      rewrite <- (samePublic_keys strict listB listB' HB).
      clear HB. induction HA as [|e e' l l' He _ IH]; [done|].
      by rewrite !fmap_cons, IH, (samePublic_key strict e e' He).
Qed.

(** ** Tokenizing what the serialiser writes *)

Lemma plainChar_spec (c : ascii) :
  plainChar c = true →
  eqc c QUOTE = false ∧ eqc c COMMA = false ∧ eqc c LF = false ∧ eqc c CR = false.
Proof.
  unfold plainChar. rewrite negb_true_iff, !orb_false_iff. tauto.
Qed.

Lemma parseCSV_loop_plain (s rest : jsstring) (rows : list (list jsstring))
    (row : list jsstring) (field : jsstring) :
  plainField s = true →
  parseCSV_loop (s ++ rest) rows row field false
  = parseCSV_loop rest rows row (field ++ s) false.
Proof.
  revert field. induction s as [|c s IH]; intros field Hs.
  - by rewrite app_nil_r.
  - simpl in Hs. apply andb_true_iff in Hs as [Hc Hs].
    apply plainChar_spec in Hc as (Hq & Hcomma & Hlf & Hcr).
    simpl. rewrite Hq, Hcomma, Hlf, Hcr. simpl.
    rewrite IH by done. by rewrite <- app_assoc.
Qed.

Lemma join_cons_cons (sep x y : jsstring) (l : list jsstring) :
  join sep (x :: y :: l) = x ++ sep ++ join sep (y :: l).
Proof. reflexivity. Qed.

(** One line of plain fields: every field but the last is pushed on the
    row, the last one is left in the field buffer. *)
Lemma parseCSV_loop_fields (pre : list jsstring) (lastf rest : jsstring)
    (rows : list (list jsstring)) (row : list jsstring) :
  forallb plainField (pre ++ [lastf]) = true →
  parseCSV_loop (join [COMMA] (pre ++ [lastf]) ++ rest) rows row [] false
  = parseCSV_loop rest rows (row ++ pre) lastf false.
Proof.
  revert row. induction pre as [|x pre IH]; intros row Hplain.
  - simpl in Hplain. apply andb_true_iff in Hplain as [Hl _].
    simpl. by rewrite parseCSV_loop_plain, app_nil_r.
  - simpl in Hplain. apply andb_true_iff in Hplain as [Hx Hplain].
    assert (∃ y l, pre ++ [lastf] = y :: l) as (y & l & Hyl)
      by (destruct pre; simpl; eauto).
    rewrite <- app_comm_cons, Hyl, join_cons_cons, <- Hyl, <- !app_assoc.
    rewrite parseCSV_loop_plain by done. simpl.
    rewrite IH by done. by rewrite <- app_assoc.
Qed.

(** Lines of at least two plain fields each, joined by CR LF, are
    tokenized into exactly those lines. *)
Lemma parseCSV_loop_lines (l0 : list jsstring) (ls rows : list (list jsstring)) :
  Forall (fun fs => 2 ≤ length fs ∧ forallb plainField fs = true) (l0 :: ls) →
  parseCSV_loop (join [CR; LF] (join [COMMA] <$> l0 :: ls)) rows [] [] false
  = rows ++ l0 :: ls.
Proof.
  revert l0 rows. induction ls as [|l1 ls IH]; intros l0 rows Hall.
  - apply Forall_cons in Hall as [[Hlen Hplain] _].
    destruct l0 as [|lastf pre _] using rev_ind; [simpl in Hlen; lia|].
    rewrite length_app in Hlen. simpl in Hlen.
    simpl. rewrite <- (app_nil_r (join _ _)).
    rewrite parseCSV_loop_fields by done. simpl.
    rewrite bool_decide_eq_true_2 by lia. by rewrite orb_true_r.
  - apply Forall_cons in Hall as [[Hlen Hplain] Hall].
    destruct l0 as [|lastf pre _] using rev_ind; [simpl in Hlen; lia|].
    rewrite !fmap_cons, join_cons_cons, <- !fmap_cons.
    set (tl := join [CR; LF] (join [COMMA] <$> l1 :: ls)).
    rewrite parseCSV_loop_fields by done.
    change (parseCSV_loop tl (rows ++ [pre ++ [lastf]]) [] [] false
            = rows ++ (pre ++ [lastf]) :: l1 :: ls).
    subst tl. rewrite IH by done. by rewrite <- app_assoc.
Qed.

(** ** Round trip *)

Lemma needsQuoting_plain (f : jsstring) :
  plainField f = true → needsQuoting f = false.
Proof.
  induction f as [|c f IH]; [done|]. simpl.
  rewrite andb_true_iff. intros [Hc Hf].
  apply plainChar_spec in Hc as (-> & -> & -> & _). by rewrite IH.
Qed.

Lemma escape_plain (f : jsstring) : plainField f = true → escape f = f.
Proof. intros Hf. unfold escape. by rewrite needsQuoting_plain. Qed.

Lemma survivesExport_spec (e : entry) :
  survivesExport e = true →
  entryLine e = join [COMMA] (rowOf e)
  ∧ (2 ≤ length (rowOf e) ∧ forallb plainField (rowOf e) = true)
  ∧ isEmptyRow (rowOf e) = false.
Proof.
  unfold survivesExport, rowOf, fiveFields, entryLine, isEmptyRow. simpl.
  rewrite !andb_true_iff, !orb_true_iff.
  intros [(Ht & Hu & Hn & Hp & Hno & _) Hsome].
  rewrite !escape_plain by done. rewrite Ht, Hu, Hn, Hp, Hno.
  repeat split; [lia|].
  destruct (title e), (url e), (username e), (password e), (notes e);
    simpl in *; try done.
  intuition discriminate.
Qed.

Lemma generateCsv_plain (entries : list entry) :
  Forall (fun e => survivesExport e = true) entries →
  generateCsv entries
  = join [CR; LF] (join [COMMA] <$> appleHeaders :: (rowOf <$> entries)).
Proof.
  intros Hall. rewrite generateCsv_join, fmap_cons. f_equal. f_equal.
  induction Hall as [|e entries He _ IH]; [done|].
  rewrite !fmap_cons, IH. f_equal. by apply survivesExport_spec.
Qed.

Lemma parseCSV_generateCsv (entries : list entry) :
  Forall (fun e => survivesExport e = true) entries →
  parseCSV (generateCsv entries) = appleHeaders :: (rowOf <$> entries).
Proof.
  intros Hall. rewrite generateCsv_plain by done. unfold parseCSV.
  rewrite parseCSV_loop_lines; [done|].
  apply Forall_cons. split; [split; [simpl; lia|vm_compute; reflexivity]|].
  apply Forall_fmap. eapply Forall_impl; [exact Hall|].
  intros e He. by apply survivesExport_spec.
Qed.

Lemma mapFields_apple (m : gmap nat prop) (t u n p no o : jsstring) :
  m !! 0 = Some p_title → m !! 1 = Some p_url → m !! 2 = None →
  m !! 3 = Some p_password → m !! 4 = Some p_notes → m !! 5 = Some p_otpAuth →
  mapFields m [t; u; n; p; no; o] 0 emptyEntry = mkEntry t u [] p no o [].
Proof.
  intros H0 H1 H2 H3 H4 H5. simpl.
  rewrite H0, H1, H2, H3, H4, H5. by rewrite !orElse_empty.
Qed.

Lemma apple_mapping :
  let m := detectMapping ((fun h => trim (orElse h [])) <$> appleHeaders) in
  m !! 0 = Some p_title ∧ m !! 1 = Some p_url ∧ m !! 2 = None ∧
  m !! 3 = Some p_password ∧ m !! 4 = Some p_notes ∧ m !! 5 = Some p_otpAuth.
Proof. repeat split; vm_compute; reflexivity. Qed.

(** What the file-to-records pipeline makes of the serialiser's output. *)
Lemma parseFile_generateCsv (hostname : jsstring → option jsstring)
    (entries : list entry) :
  Forall (fun e => survivesExport e = true) entries →
  parseFile hostname (Some (generateCsv entries))
  = (fun e => mkEntry (title e) (normaliseUrl (url e)) [] (password e) (notes e) []
                      (extractDomain hostname (normaliseUrl (url e)))) <$> entries.
Proof.
  intros Hall. unfold parseFile, parseText.
  rewrite parseCSV_generateCsv by done.
  rewrite rowsLoop_filter. simpl app.
  destruct apple_mapping as (H0 & H1 & H2 & H3 & H4 & H5).
  set (m := detectMapping _) in *. clearbody m.
  induction Hall as [|e entries He _ IH]; [done|].
  rewrite !fmap_cons, filter_cons, decide_True by (by apply survivesExport_spec).
  rewrite fmap_cons, IH. f_equal.
  unfold buildEntry, rowOf, fiveFields. simpl app.
  rewrite (mapFields_apple m) by done. reflexivity.
Qed.

(** The five exported properties of a parsed entry do not depend on the
    URL parser: only [domain] does. *)
Lemma fiveFields_hostname (h1 h2 : jsstring → option jsstring)
    (file : option jsstring) :
  fiveFields <$> parseFile h1 file = fiveFields <$> parseFile h2 file.
Proof.
  destruct file as [text|]; [|done]. unfold parseFile, parseText.
  destruct (parseCSV text) as [|header rows]; [done|].
  rewrite !rowsLoop_filter. simpl app.
  rewrite <- !list_fmap_compose. by apply list_fmap_ext.
Qed.

(** The username column of the serialiser's own output is never read back:
    its header is matched with [title], which the first column has taken. *)
Lemma roundtrip_username_lost (hostname : jsstring → option jsstring)
    (entries : list entry) :
  Forall (fun e => survivesExport e = true) entries →
  username <$> parseFile hostname (Some (generateCsv entries))
  = (fun _ => []) <$> entries.
Proof.
  intros Hall. rewrite parseFile_generateCsv by done.
  by rewrite <- list_fmap_compose.
Qed.

(** C2, as stated, fails at lists whose fields contain no comma, double
    quote or line feed: the username is not reproduced; a url that is not
    in normal form comes back normalised; an entry whose five fields are
    empty is dropped; a carriage return inside a field splits the row. *)
Lemma roundtrip_fails :
  (forallb noSpecial [alice] = true
   ∧ fiveFields <$> parseFile rejectAll (Some (generateCsv [alice]))
     ≠ fiveFields <$> [alice])
  ∧ (forallb noSpecial [bare] = true
     ∧ fiveFields <$> parseFile rejectAll (Some (generateCsv [bare]))
       ≠ fiveFields <$> [bare])
  ∧ (forallb noSpecial [emptyEntry] = true
     ∧ fiveFields <$> parseFile rejectAll (Some (generateCsv [emptyEntry]))
       ≠ fiveFields <$> [emptyEntry])
  ∧ (forallb noSpecial [twoLines] = true
     ∧ fiveFields <$> parseFile rejectAll (Some (generateCsv [twoLines]))
       ≠ fiveFields <$> [twoLines]).
Proof. repeat split; vm_compute; (reflexivity || discriminate). Qed.

(** C2, amended: for every list of entries none of whose fields contains a
    comma, a double quote, a line feed or a carriage return, and none of
    which has its five exported fields all empty, parsing the output of
    [generateCsv] yields one entry per entry of the list, in order, with
    the same title, password and notes, and with the url normalised (hence
    the same url whenever the url is already in normal form). *)
Theorem generateCsv_roundtrip (hostname : jsstring → option jsstring)
    (entries : list entry) :
  Forall (fun e => survivesExport e = true) entries →
  (fun e => (title e, url e, password e, notes e))
    <$> parseFile hostname (Some (generateCsv entries))
  = (fun e => (title e, normaliseUrl (url e), password e, notes e)) <$> entries.
Proof.
  intros Hall. rewrite parseFile_generateCsv by done.
  by rewrite <- list_fmap_compose.
Qed.

(** The amended C2 at a list of two entries. *)
Lemma generateCsv_roundtrip_witness :
  (fun e => (title e, url e, password e, notes e))
    <$> parseFile rejectAll (Some (generateCsv [alice; bare]))
  = (fun e => (title e, normaliseUrl (url e), password e, notes e))
    <$> [alice; bare].
Proof.
  apply (generateCsv_roundtrip rejectAll [alice; bare]).
  repeat constructor.
Defined.

(** C9 at a small file whose password cell has spaces around it, and at
    two lists that differ in one password. *)
Lemma password_opaque_witness :
  password (buildEntry rejectAll
              (detectMapping [str "login"; str "password"; str "url"])
              [str "Bob@X.org"; str " P@ss Word "; str "x.org"])
  = str " P@ss Word "
  ∧ ∃ mask : list bool,
      length mask = 2
      ∧ computeMissing [alice; bare] [bare] false = pick mask [alice; bare]
      ∧ computeMissing [aliceRekeyed; bare] [bare] false
        = pick mask [aliceRekeyed; bare].
Proof.
  destruct password_opaque as [Hparse Hcmp]. split.
  - refine (proj2 (Hparse rejectAll smallFile
                     [str "login"; str "password"; str "url"]
                     [[str "Bob@X.org"; str " P@ss Word "; str "x.org"]] _)
              _ 1 _ _ _).
    + vm_compute. reflexivity.
    + vm_compute. reflexivity.
    + reflexivity.
  - apply (Hcmp [alice; bare] [aliceRekeyed; bare] [bare] [bare] false).
    + repeat constructor.
    + repeat constructor.
Defined.

(** ** URL normalisation *)

Lemma trimStart_decomp (s : jsstring) :
  ∃ w, s = w ++ trimStart s ∧ forallb isSpace w = true.
Proof.
  induction s as [|c s (w & Hs & Hw)]; [by exists []|].
  simpl. destruct (isSpace c) eqn:Hc.
  - exists (c :: w). simpl. rewrite Hc, Hw. split; [by f_equal|done].
  - by exists [].
Qed.

Lemma trimStart_id (c : ascii) (s : jsstring) :
  isSpace c = false → trimStart (c :: s) = c :: s.
Proof. intros Hc. simpl. by rewrite Hc. Qed.

Lemma trimStart_head (s : jsstring) (c : ascii) (t : jsstring) :
  trimStart s = c :: t → isSpace c = false.
Proof.
  induction s as [|d s IH]; [done|]. simpl.
  destruct (isSpace d) eqn:Hd; [done|]. by intros [= <- _].
Qed.

Lemma forallb_reverse {A} (f : A → bool) (l : list A) :
  forallb f (reverse l) = forallb f l.
Proof.
  induction l as [|x l IH]; [done|].
  rewrite reverse_cons, forallb_app, IH. simpl. rewrite andb_true_r.
  apply andb_comm.
Qed.

Lemma trimEnd_decomp (s : jsstring) :
  ∃ w, s = trimEnd s ++ w ∧ forallb isSpace w = true.
Proof.
  destruct (trimStart_decomp (reverse s)) as (w & Hs & Hw).
  exists (reverse w). split; [|by rewrite forallb_reverse].
  unfold trimEnd. rewrite <- reverse_app, <- Hs. by rewrite reverse_involutive.
Qed.

Lemma trimEnd_id (s : jsstring) (c : ascii) :
  isSpace c = false → trimEnd (s ++ [c]) = s ++ [c].
Proof.
  intros Hc. unfold trimEnd. rewrite reverse_snoc, trimStart_id by done.
  by rewrite reverse_cons, reverse_involutive.
Qed.

Lemma trimEnd_last (s : jsstring) (c : ascii) :
  last (trimEnd s) = Some c → isSpace c = false.
Proof.
  unfold trimEnd. rewrite last_reverse.
  destruct (trimStart (reverse s)) as [|d t] eqn:Ht; [done|].
  intros [= ->]. by apply trimStart_head in Ht.
Qed.

Lemma trim_decomp (s : jsstring) :
  ∃ w w', s = w ++ trim s ++ w'
          ∧ forallb isSpace w = true ∧ forallb isSpace w' = true.
Proof.
  destruct (trimStart_decomp s) as (w & Hs & Hw).
  destruct (trimEnd_decomp (trimStart s)) as (w' & Hs' & Hw').
  exists w, w'. unfold trim. by rewrite <- Hs', <- Hs.
Qed.

Lemma countSpaces_app (s t : jsstring) :
  countSpaces (s ++ t) = countSpaces s + countSpaces t.
Proof. unfold countSpaces. by rewrite List.filter_app, length_app. Qed.

Lemma countSpaces_all (w : jsstring) :
  forallb isSpace w = true → countSpaces w = length w.
Proof.
  unfold countSpaces. induction w as [|c w IH]; [done|]. simpl.
  rewrite andb_true_iff. intros [-> Hw]. simpl. by rewrite IH.
Qed.

Lemma countSpaces_le (s : jsstring) : countSpaces s ≤ length s.
Proof.
  unfold countSpaces. induction s as [|c s IH]; [done|]. simpl.
  destruct (isSpace c); simpl; lia.
Qed.

(** A string with as many white space characters as its trimmed form is
    trimmed already. *)
Lemma trim_countSpaces (s : jsstring) :
  countSpaces s ≤ countSpaces (trim s) → trim s = s.
Proof.
  destruct (trim_decomp s) as (w & w' & Hs & Hw & Hw'). intros Hle.
  rewrite Hs in Hle at 1. rewrite !countSpaces_app in Hle.
  rewrite (countSpaces_all w), (countSpaces_all w') in Hle by done.
  destruct w; [|simpl in Hle; lia]. destruct w'; [|simpl in Hle; lia].
  rewrite app_nil_r in Hs. done.
Qed.

Lemma stripSlash_cases (s : jsstring) :
  (stripSlash s = s ∧ last s ≠ Some SLASH)
  ∨ (s = stripSlash s ++ [SLASH]).
Proof.
  unfold stripSlash. destruct s as [|c s _] using rev_ind.
  - left. done.
  - rewrite reverse_snoc, last_snoc. unfold eqc. case_bool_decide as Hc.
    + right. subst c. by rewrite reverse_involutive.
    + left. split; [done|]. by intros [= ->].
Qed.

Lemma stripSlash_id (s : jsstring) :
  last s ≠ Some SLASH → stripSlash s = s.
Proof.
  intros Hl. destruct (stripSlash_cases s) as [[H _]|H]; [done|].
  rewrite H, last_snoc in Hl. done.
Qed.

Lemma stripSlash_countSpaces (s : jsstring) :
  countSpaces (stripSlash s) = countSpaces s.
Proof.
  destruct (stripSlash_cases s) as [[-> _]|H]; [done|].
  rewrite H at 2. rewrite countSpaces_app. simpl.
  change (countSpaces [SLASH]) with 0. lia.
Qed.

Lemma stripSlash_length (s : jsstring) :
  length s ≤ S (length (stripSlash s)).
Proof.
  destruct (stripSlash_cases s) as [[-> _]|H]; [lia|].
  rewrite H at 1. rewrite length_app. simpl. lia.
Qed.

Lemma regexCanon_h (c : ascii) :
  regexCanon "h" = regexCanon c → isSpace c = false.
Proof.
  destruct c as [[] [] [] [] [] [] [] []]; vm_compute; intros H;
    first [reflexivity | discriminate H].
Qed.

Lemma hasScheme_head (s : jsstring) :
  hasScheme s = true → ∃ c t, s = c :: t ∧ isSpace c = false.
Proof.
  unfold hasScheme. destruct s as [|c t]; [done|]. intros H.
  exists c, t. split; [done|]. apply regexCanon_h.
  apply orb_true_iff in H as [H|H]; simpl in H;
    apply andb_true_iff in H as [H _]; unfold eqc in H;
    by apply bool_decide_eq_true in H.
Qed.

Lemma trim_stable (s : jsstring) :
  hasScheme s = true → endsClean s = true → trim s = s.
Proof.
  intros Hs He. apply hasScheme_head in Hs as (c & t & -> & Hc).
  unfold trim. rewrite trimStart_id by done.
  unfold endsClean in He.
  destruct (last (c :: t)) as [d|] eqn:Hl; [|done].
  apply last_Some in Hl as (body & ->).
  apply andb_true_iff in He as [Hd _]. apply negb_true_iff in Hd.
  by apply trimEnd_id.
Qed.

(** The fixed points of [normaliseUrl] are exactly the stable strings. *)
Lemma normaliseUrl_fixed_point (y : jsstring) :
  normaliseUrl y = y ↔ stable y = true.
Proof.
  destruct y as [|c0 y0]; [done|].
  set (y := c0 :: y0). unfold stable, normaliseUrl.
  change (truthy y) with true. cbn [negb orb].
  split.
  - intros Hfix.
    assert (Htrim : trim y = y).
    { apply trim_countSpaces. rewrite <- Hfix at 1.
      rewrite stripSlash_countSpaces.
      destruct (truthy (trim y) && negb (hasScheme (trim y))); [|lia].
      rewrite countSpaces_app. change (countSpaces (str "https://")) with 0. lia. }
    rewrite Htrim in Hfix. change (truthy y) with true in Hfix.
    destruct (hasScheme y) eqn:Hs; simpl in Hfix.
    + simpl. unfold endsClean.
      destruct (last y) as [c|] eqn:Hl; [|by apply last_None in Hl].
      assert (Hsp : isSpace c = false).
      { apply (trimEnd_last (trimStart y)). fold (trim y). by rewrite Htrim. }
      rewrite Hsp. simpl. unfold eqc. apply negb_true_iff, bool_decide_eq_false.
      intros ->. destruct (stripSlash_cases y) as [[_ Hne]|Hy]; [done|].
      rewrite Hfix in Hy. apply (f_equal length) in Hy.
      rewrite length_app in Hy. simpl in Hy. lia.
    + assert (Hfix' : stripSlash (str "https://" ++ y) = y) by exact Hfix.
      pose proof (stripSlash_length (str "https://" ++ y)) as Hlen.
      rewrite Hfix', length_app in Hlen. simpl in Hlen. lia.
  - intros Hst. apply andb_true_iff in Hst as [Hs He].
    rewrite trim_stable by done. change (truthy y) with true.
    rewrite Hs. simpl. apply stripSlash_id.
    unfold endsClean in He. destruct (last y) as [c|]; [|done].
    apply andb_true_iff in He as [_ He]. apply negb_true_iff in He.
    unfold eqc in He. apply bool_decide_eq_false in He. by intros [= ->].
Qed.

(** C4, as stated, fails: normalising [a//] gives [https://a/], and
    normalising that gives [https://a]. *)
Lemma normaliseUrl_not_idempotent :
  normaliseUrl (normaliseUrl (str "a//")) ≠ normaliseUrl (str "a//").
Proof. vm_compute. discriminate. Qed.

(** C4, amended: normalising twice gives the same as normalising once
    exactly when the normalised url is empty, or still begins with
    [http://] or [https://] (in any case) and ends with neither a slash nor
    a white space character. *)
Theorem normaliseUrl_idempotent_iff (x : jsstring) :
  normaliseUrl (normaliseUrl x) = normaliseUrl x ↔ stable (normaliseUrl x) = true.
Proof. apply normaliseUrl_fixed_point. Qed.

(** The amended C4 at a url that needs trimming, a scheme and the removal
    of a slash. *)
Lemma normaliseUrl_idempotent_iff_witness :
  normaliseUrl (normaliseUrl (str "  Example.com/path/ "))
  = normaliseUrl (str "  Example.com/path/ ").
Proof.
  apply (proj2 (normaliseUrl_idempotent_iff (str "  Example.com/path/ "))).
  vm_compute. reflexivity.
Defined.

(** * Further properties *)

(** ** The tokenizer on arbitrary input *)

(** Induction on a string two characters at a time, as the loop consumes
    it. *)
Lemma jsstring_pair_ind (P : jsstring → Prop) :
  P [] → (∀ c s, P s → (∀ c' s', s = c' :: s' → P s') → P (c :: s)) →
  ∀ s, P s.
Proof.
  intros Hnil Hcons s.
  assert (H : P s ∧ ∀ c' s', s = c' :: s' → P s'); [|by destruct H].
  induction s as [|c s [IH1 IH2]]; [by split|].
  split; [by apply Hcons|]. by intros c' s' [= -> ->].
Qed.

Lemma parseCSV_loop_rows_nonempty (text : jsstring) :
  ∀ rows row field inQuotes,
    Forall (fun r => r ≠ []) rows →
    Forall (fun r : list jsstring => r ≠ [])
           (parseCSV_loop text rows row field inQuotes).
Proof.
  assert (Hpush : ∀ rows (row : list jsstring) field,
            Forall (fun r => r ≠ []) rows →
            Forall (fun r : list jsstring => r ≠ []) (rows ++ [row ++ [field]])).
  { intros rows row field Hrows. apply Forall_app. split; [done|].
    apply Forall_singleton. by destruct row. }
  induction text as [|c rest IH IH'] using jsstring_pair_ind;
    intros rows row field inQuotes Hrows.
  - simpl. destruct (truthy field || bool_decide (0 < length row)); auto.
  - simpl. destruct (eqc c QUOTE).
    { destruct rest as [|c' rest']; [by apply IH|].
      destruct (inQuotes && eqc c' QUOTE); [by apply (IH' c' rest')|by apply IH]. }
    destruct (eqc c COMMA && negb inQuotes); [by apply IH|].
    destruct ((eqc c LF || eqc c CR) && negb inQuotes); [|by apply IH].
    destruct rest as [|c' rest']; [apply IH; auto|].
    destruct (eqc c CR && eqc c' LF); [apply (IH' c' rest'); auto|apply IH; auto].
Qed.

(** X1: every row the tokenizer returns has at least one field, whatever
    the input. *)
Theorem parseCSV_rows_nonempty (text : jsstring) (row : list jsstring) :
  row ∈ parseCSV text → 1 ≤ length row.
Proof.
  intros Hin.
  pose proof (parseCSV_loop_rows_nonempty text [] [] [] false (Forall_nil_2 _)) as Hall.
  rewrite Forall_forall in Hall. specialize (Hall row Hin).
  destruct row; [done|simpl; lia].
Qed.

Lemma parseCSV_rows_nonempty_witness : 1 ≤ length [str "a"; str "b"].
Proof.
  apply (parseCSV_rows_nonempty (str "a,b" ++ [LF] ++ str "c")).
  vm_compute. left.
Defined.

(** ** Reading back what [escape] writes *)

(** Inside quotes the doubled quotes of [v] are read as the quotes of [v],
    and the closing quote ends quote mode when no quote follows it. *)
Lemma parseCSV_loop_in_quotes (v rest : jsstring) (rows : list (list jsstring))
    (row : list jsstring) (field : jsstring) :
  head rest ≠ Some QUOTE →
  parseCSV_loop (doubleQuotes v ++ QUOTE :: rest) rows row field true
  = parseCSV_loop rest rows row (field ++ v) false.
Proof.
  intros Hrest. revert field. induction v as [|c v IH]; intros field.
  - rewrite app_nil_r. simpl. destruct rest as [|c' rest']; [done|].
    unfold eqc at 1. rewrite bool_decide_eq_false_2; [done|].
    intros ->. by apply Hrest.
  - unfold doubleQuotes. simpl. fold (doubleQuotes v).
    destruct (eqc c QUOTE) eqn:Hc.
    + unfold eqc in Hc. apply bool_decide_eq_true in Hc as ->.
      simpl. rewrite IH. by rewrite <- app_assoc.
    + simpl. rewrite Hc, !andb_false_r.
      rewrite IH. by rewrite <- app_assoc.
Qed.

Lemma parseCSV_loop_field (f rest : jsstring) (rows : list (list jsstring))
    (row : list jsstring) :
  tokenizable f = true → head rest ≠ Some QUOTE →
  parseCSV_loop (escape f ++ rest) rows row [] false
  = parseCSV_loop rest rows row f false.
Proof.
  intros Hf Hrest. unfold escape. destruct (needsQuoting f) eqn:Hq.
  - rewrite <- !app_assoc.
    change (parseCSV_loop (QUOTE :: doubleQuotes f ++ QUOTE :: rest) rows row [] false
            = parseCSV_loop rest rows row f false).
    transitivity (parseCSV_loop (doubleQuotes f ++ QUOTE :: rest) rows row [] true).
    + simpl. by destruct (doubleQuotes f ++ QUOTE :: rest).
    + by rewrite parseCSV_loop_in_quotes.
  - unfold tokenizable in Hf. rewrite Hq in Hf. simpl in Hf.
    by rewrite parseCSV_loop_plain.
Qed.

Lemma renderLine_cons (x y : jsstring) (l : list jsstring) :
  renderLine (x :: y :: l) = escape x ++ [COMMA] ++ renderLine (y :: l).
Proof. reflexivity. Qed.

(** One written line: every field but the last is pushed on the row, the
    last one is left in the field buffer. *)
Lemma parseCSV_loop_renderLine (pre : list jsstring) (lastf rest : jsstring)
    (rows : list (list jsstring)) (row : list jsstring) :
  forallb tokenizable (pre ++ [lastf]) = true → head rest ≠ Some QUOTE →
  parseCSV_loop (renderLine (pre ++ [lastf]) ++ rest) rows row [] false
  = parseCSV_loop rest rows (row ++ pre) lastf false.
Proof.
  intros Htok Hrest. revert row Htok.
  induction pre as [|x pre IH]; intros row Htok.
  - simpl in Htok. apply andb_true_iff in Htok as [Hl _].
    unfold renderLine. simpl. by rewrite parseCSV_loop_field, app_nil_r.
  - simpl in Htok. apply andb_true_iff in Htok as [Hx Htok].
    assert (∃ y l, pre ++ [lastf] = y :: l) as (y & l & Hyl)
      by (destruct pre; simpl; eauto).
    rewrite <- app_comm_cons, Hyl, renderLine_cons, <- Hyl, <- !app_assoc.
    rewrite parseCSV_loop_field by done. simpl.
    rewrite IH by done. by rewrite <- app_assoc.
Qed.

(** A terminator outside quotes ends the row.  After a lone carriage
    return the next character must not be a line feed, which would be
    taken as the second half of the terminator. *)
Lemma parseCSV_loop_terminator (sep tail : jsstring)
    (rows : list (list jsstring)) (row : list jsstring) (field : jsstring) :
  sep ∈ terminators → (sep = [CR] → head tail ≠ Some LF) →
  parseCSV_loop (sep ++ tail) rows row field false
  = parseCSV_loop tail (rows ++ [row ++ [field]]) [] [] false.
Proof.
  intros Hsep Htail. unfold terminators in Hsep.
  rewrite !elem_of_cons, elem_of_nil in Hsep.
  destruct Hsep as [->|[->|[->|[]]]]; simpl.
  - by destruct tail.
  - destruct tail as [|c' tail']; [done|].
    unfold eqc at 1. rewrite bool_decide_eq_false_2; [done|].
    intros ->. by apply Htail.
  - done.
Qed.

(** What a written line starts with is never a line feed. *)
Lemma renderLine_head (fields : list jsstring) (tail : jsstring) :
  forallb tokenizable fields = true → head tail ≠ Some LF →
  head (renderLine fields ++ tail) ≠ Some LF.
Proof.
  intros Htok Htail. destruct fields as [|f fields]; [done|].
  simpl in Htok. apply andb_true_iff in Htok as [Hf _].
  assert (Hesc : ∀ rest, head rest ≠ Some LF → head (escape f ++ rest) ≠ Some LF).
  { intros rest Hrest. unfold escape. destruct (needsQuoting f) eqn:Hq; [done|].
    destruct f as [|c f]; [done|]. simpl in *.
    apply orb_false_iff in Hq as [Hq _]. apply orb_false_iff in Hq as [_ Hq].
    unfold eqc in Hq. apply bool_decide_eq_false in Hq. by intros [= ->]. }
  destruct fields as [|g fields].
  - unfold renderLine. simpl. by apply Hesc.
  - rewrite renderLine_cons, <- !app_assoc. by apply Hesc.
Qed.

Lemma terminator_head (sep tail : jsstring) :
  sep ∈ terminators → head (sep ++ tail) ≠ Some QUOTE.
Proof.
  unfold terminators. rewrite !elem_of_cons, elem_of_nil.
  by intros [->|[->|[->|[]]]].
Qed.

(** Written lines, each followed by a terminator, and then [tail]. *)
Lemma parseCSV_loop_terminated (sep tail : jsstring)
    (ls rows : list (list jsstring)) :
  sep ∈ terminators →
  Forall (fun fs => fs ≠ [] ∧ forallb tokenizable fs = true) ls →
  (sep = [CR] → head tail ≠ Some LF) →
  parseCSV_loop (concat ((fun fs => renderLine fs ++ sep) <$> ls) ++ tail)
                rows [] [] false
  = parseCSV_loop tail (rows ++ ls) [] [] false
  ∧ (sep = [CR] →
     head (concat ((fun fs => renderLine fs ++ sep) <$> ls) ++ tail) ≠ Some LF).
Proof.
  intros Hsep Hall Htail. revert rows.
  induction Hall as [|fs ls [Hne Htok] _ IH]; intros rows.
  - simpl. by rewrite app_nil_r.
  - rewrite fmap_cons. simpl concat. rewrite <- !app_assoc.
    destruct (IH rows) as [_ Hhead]. split.
    + destruct fs as [|lastf pre _] using rev_ind; [done|].
      rewrite parseCSV_loop_renderLine by (done || by apply terminator_head).
      rewrite parseCSV_loop_terminator by done.
      rewrite (proj1 (IH _)). by rewrite <- app_assoc.
    + intros ->. by apply renderLine_head.
Qed.

Lemma join_snoc_concat (sep : jsstring) (xs : list jsstring) (y : jsstring) :
  join sep (xs ++ [y]) = concat ((fun x => x ++ sep) <$> xs) ++ y.
Proof.
  induction xs as [|x xs IH]; [done|].
  assert (∃ z l, xs ++ [y] = z :: l) as (z & l & Hzl)
    by (destruct xs; simpl; eauto).
  rewrite <- app_comm_cons, Hzl, join_cons_cons, <- Hzl, IH.
  rewrite fmap_cons. simpl. by rewrite <- !app_assoc.
Qed.

Lemma escape_head (f rest : jsstring) :
  head rest ≠ Some LF → head (escape f ++ rest) ≠ Some LF.
Proof.
  intros Hrest. unfold escape.
  destruct (needsQuoting f) eqn:Hq; [simpl; discriminate|].
  destruct f as [|c f]; [done|]. simpl in Hq.
  apply orb_false_iff in Hq as [Hq _]. apply orb_false_iff in Hq as [_ Hq].
  unfold eqc in Hq. apply bool_decide_eq_false in Hq. simpl. by intros [= ->].
Qed.

(** What a written line followed by [tail] starts with is no line feed,
    unless the line is a single empty field and [tail] starts with one. *)
Lemma renderLine_head_strong (fields : list jsstring) (tail : jsstring) :
  forallb tokenizable fields = true → fields ≠ [] →
  (fields = [[]] → head tail ≠ Some LF) →
  head (renderLine fields ++ tail) ≠ Some LF.
Proof.
  intros Htok Hne Htail. destruct fields as [|f fields]; [done|].
  destruct fields as [|g fields].
  - destruct f as [|c f]; [by apply Htail|].
    change (renderLine [c :: f]) with (escape (c :: f)). unfold escape.
    destruct (needsQuoting (c :: f)) eqn:Hq; [simpl; discriminate|].
    simpl in Hq. apply orb_false_iff in Hq as [Hq _].
    apply orb_false_iff in Hq as [_ Hq].
    unfold eqc in Hq. apply bool_decide_eq_false in Hq.
    simpl. by intros [= ->].
  - rewrite renderLine_cons, <- !app_assoc. by apply escape_head.
Qed.

Lemma splitsCrLf_cons (lt lt' : list jsstring * jsstring)
    (rest : list (list jsstring * jsstring)) :
  splitsCrLf (lt :: lt' :: rest)
  = (bool_decide (lt.2 = [CR]) && bool_decide (lt'.1 = [[]])
     && bool_decide (lt'.2 = [LF]))
    || splitsCrLf (lt' :: rest).
Proof. reflexivity. Qed.

(** Written lines, each followed by a terminator of its own. *)
Lemma parseCSV_loop_mixed (lts : list (list jsstring * jsstring))
    (rows : list (list jsstring)) :
  Forall (fun lt => lt.1 ≠ [] ∧ forallb tokenizable lt.1 = true
                    ∧ lt.2 ∈ terminators) lts →
  splitsCrLf lts = false →
  parseCSV_loop (concat ((fun lt => renderLine lt.1 ++ lt.2) <$> lts))
                rows [] [] false
  = rows ++ lts.*1.
Proof.
  revert rows. induction lts as [|[fs sep] rest IH]; intros rows Hall Hsplit.
  - simpl. by rewrite app_nil_r.
  - apply Forall_cons in Hall as [(Hne & Htok & Hsep) Hall]. simpl in Hne, Htok, Hsep.
    assert (Hrest : splitsCrLf rest = false).
    { destruct rest as [|lt' rest']; [done|].
      rewrite splitsCrLf_cons in Hsplit. by apply orb_false_iff in Hsplit as [_ ?]. }
    rewrite !fmap_cons. simpl concat. cbn [fst snd]. rewrite <- app_assoc.
    destruct fs as [|lastf pre _] using rev_ind; [done|].
    rewrite parseCSV_loop_renderLine by (done || by apply terminator_head).
    rewrite parseCSV_loop_terminator; [|done|].
    + rewrite IH by done. by rewrite <- app_assoc.
    + intros ->. destruct rest as [|[fs' sep'] rest']; [done|].
      apply Forall_cons in Hall as [(Hne' & Htok' & Hsep') _].
      simpl in Hne', Htok', Hsep'.
      rewrite fmap_cons. simpl concat. cbn [fst snd]. rewrite <- app_assoc.
      apply renderLine_head_strong; [done|done|]. intros ->.
      rewrite splitsCrLf_cons in Hsplit. cbn [fst snd] in Hsplit.
      apply orb_false_iff in Hsplit as [Hsplit _].
      rewrite !bool_decide_eq_true_2 in Hsplit by done. simpl in Hsplit.
      apply bool_decide_eq_false in Hsplit.
      unfold terminators in Hsep'. rewrite !elem_of_cons, elem_of_nil in Hsep'.
      by destruct Hsep' as [->|[->|[->|[]]]].
Qed.

(** X2: lines of fields written with [escape], each line followed by a
    terminator of its own (LF, CR or CR LF, not necessarily the same one
    throughout), are read back as exactly those lines: no field is split at
    a comma, quote or line break it contains, and no row is added or lost.
    One arrangement is excluded: a line ended by a lone CR right before a
    line that is a single empty field ended by LF, whose CR and LF would
    meet and be read as one terminator. *)
Theorem parseCSV_terminated_lines (lts : list (list jsstring * jsstring)) :
  Forall (fun lt => lt.1 ≠ [] ∧ forallb tokenizable lt.1 = true
                    ∧ lt.2 ∈ terminators) lts →
  splitsCrLf lts = false →
  parseCSV (concat ((fun lt => renderLine lt.1 ++ lt.2) <$> lts)) = lts.*1.
Proof. intros Hall Hsplit. unfold parseCSV. by rewrite parseCSV_loop_mixed. Qed.

Lemma parseCSV_joined_lines_aux (sep : jsstring) (ls : list (list jsstring)) :
  sep ∈ terminators →
  Forall (fun fs => fs ≠ [] ∧ forallb tokenizable fs = true) ls →
  last ls ≠ Some [[]] →
  parseCSV (join sep (renderLine <$> ls)) = ls.
Proof.
  intros Hsep Hall Hlast.
  destruct ls as [|fs ls _] using rev_ind; [done|].
  apply Forall_app in Hall as [Hall Hfs].
  apply Forall_singleton in Hfs as [Hne Htok].
  rewrite fmap_app. change (renderLine <$> [fs]) with [renderLine fs].
  rewrite join_snoc_concat, <- list_fmap_compose. unfold parseCSV, compose.
  assert (Hhead : sep = [CR] → head (renderLine fs) ≠ Some LF).
  { intros _. rewrite <- (app_nil_r (renderLine fs)). by apply renderLine_head. }
  rewrite (proj1 (parseCSV_loop_terminated sep _ ls [] Hsep Hall Hhead)).
  destruct fs as [|lastf pre _] using rev_ind; [done|].
  rewrite <- (app_nil_r (renderLine _)).
  rewrite parseCSV_loop_renderLine by done. simpl.
  rewrite last_snoc in Hlast.
  destruct lastf as [|c lastf]; [|done]. simpl.
  destruct pre as [|f pre]; [done|]. reflexivity.
Qed.

(** X3: the same lines joined by a terminator, without one after the last
    line, are read back as exactly those lines, unless the last line is a
    single empty field (which then leaves nothing to flush). *)
Theorem parseCSV_joined_lines (sep : jsstring) (ls : list (list jsstring)) :
  sep ∈ terminators →
  Forall (fun fs => fs ≠ [] ∧ forallb tokenizable fs = true) ls →
  last ls ≠ Some [[]] →
  parseCSV (join sep (renderLine <$> ls)) = ls.
Proof. apply parseCSV_joined_lines_aux. Qed.

(** X2 at four lines with three different terminators. *)
Lemma parseCSV_terminated_lines_witness :
  parseCSV (concat ((fun lt => renderLine lt.1 ++ lt.2) <$> trickyTerminated))
  = trickyTerminated.*1.
Proof.
  apply (parseCSV_terminated_lines trickyTerminated).
  - repeat constructor; try discriminate; simpl;
      apply (bool_decide_unpack _); vm_compute; exact I.
  - vm_compute. reflexivity.
Defined.

Lemma parseCSV_joined_lines_witness :
  parseCSV (join [LF] (renderLine <$> trickyLines)) = trickyLines.
Proof.
  apply (parseCSV_joined_lines [LF] trickyLines).
  - left.
  - repeat constructor; discriminate.
  - vm_compute. discriminate.
Defined.

(** ** The serialiser and the pipeline on fields that need quoting *)

Lemma exportable_spec (e : entry) :
  exportable e = true →
  forallb tokenizable (rowOf e) = true ∧ isEmptyRow (rowOf e) = false.
Proof.
  unfold exportable, rowOf, fiveFields, isEmptyRow. simpl.
  rewrite !andb_true_iff, !orb_true_iff.
  intros [(Ht & Hu & Hn & Hp & Hno & _) Hsome].
  rewrite Ht, Hu, Hn, Hp, Hno. split; [done|].
  destruct (title e), (url e), (username e), (password e), (notes e);
    simpl in *; try done.
  intuition discriminate.
Qed.

Lemma generateCsv_renderLine (entries : list entry) :
  generateCsv entries
  = join [CR; LF] (renderLine <$> appleHeaders :: (rowOf <$> entries)).
Proof.
  rewrite generateCsv_join, fmap_cons, <- list_fmap_compose. done.
Qed.

Lemma parseCSV_generateCsv_quoted (entries : list entry) :
  Forall (fun e => exportable e = true) entries →
  parseCSV (generateCsv entries) = appleHeaders :: (rowOf <$> entries).
Proof.
  intros Hall. rewrite generateCsv_renderLine.
  apply parseCSV_joined_lines_aux.
  - right. right. left.
  - apply Forall_cons. split; [split; [done|vm_compute; reflexivity]|].
    apply Forall_fmap. eapply Forall_impl; [exact Hall|].
    intros e He. split; [done|]. by apply exportable_spec.
  - rewrite last_cons. destruct (last (rowOf <$> entries)) as [r|] eqn:Hl; [|done].
    intros [= ->]. apply last_Some_elem_of in Hl.
    apply list_elem_of_fmap in Hl as (e & He & _). done.
Qed.

Lemma parseFile_generateCsv_quoted (hostname : jsstring → option jsstring)
    (entries : list entry) :
  Forall (fun e => exportable e = true) entries →
  parseFile hostname (Some (generateCsv entries))
  = (fun e => mkEntry (title e) (normaliseUrl (url e)) [] (password e) (notes e) []
                      (extractDomain hostname (normaliseUrl (url e)))) <$> entries.
Proof.
  intros Hall. unfold parseFile, parseText.
  rewrite parseCSV_generateCsv_quoted by done.
  rewrite rowsLoop_filter. simpl app.
  destruct apple_mapping as (H0 & H1 & H2 & H3 & H4 & H5).
  set (m := detectMapping _) in *. clearbody m.
  induction Hall as [|e entries He _ IH]; [done|].
  rewrite !fmap_cons, filter_cons, decide_True by (by apply exportable_spec).
  rewrite fmap_cons, IH. f_equal.
  unfold buildEntry, rowOf, fiveFields. simpl app.
  rewrite (mapFields_apple m) by done. reflexivity.
Qed.

(** X4: the tokenizer reads the output of [generateCsv] back as the header
    row and one row of six cells per entry, the fields unchanged, also when
    fields contain commas, double quotes and line breaks; all it takes is
    that a field with a carriage return also has a character that makes
    [escape] quote it, and that no entry has its five fields all empty. *)
Theorem generateCsv_tokenized (entries : list entry) :
  Forall (fun e => exportable e = true) entries →
  parseCSV (generateCsv entries)
  = appleHeaders :: ((fun e => fiveFields e ++ [[]]) <$> entries).
Proof. apply parseCSV_generateCsv_quoted. Qed.

Lemma generateCsv_tokenized_witness :
  parseCSV (generateCsv [awkward; alice])
  = appleHeaders :: ((fun e => fiveFields e ++ [[]]) <$> [awkward; alice]).
Proof.
  apply (generateCsv_tokenized [awkward; alice]).
  repeat constructor.
Defined.

(** X5: parsing the output of [generateCsv] gives one entry per exported
    entry, in order, with the same title, password and notes, the url
    normalised once more, an empty username (its column is not read
    back), an empty otpAuth (the serialiser writes that column empty) and
    the domain derived from the url again. *)
Theorem generateCsv_parseFile (hostname : jsstring → option jsstring)
    (entries : list entry) :
  Forall (fun e => exportable e = true) entries →
  parseFile hostname (Some (generateCsv entries))
  = (fun e => mkEntry (title e) (normaliseUrl (url e)) [] (password e) (notes e) []
                      (extractDomain hostname (normaliseUrl (url e)))) <$> entries.
Proof. apply parseFile_generateCsv_quoted. Qed.

Lemma generateCsv_parseFile_witness :
  parseFile rejectAll (Some (generateCsv [awkward; alice]))
  = (fun e => mkEntry (title e) (normaliseUrl (url e)) [] (password e) (notes e) []
                      (extractDomain rejectAll (normaliseUrl (url e))))
    <$> [awkward; alice].
Proof.
  apply (generateCsv_parseFile rejectAll [awkward; alice]).
  repeat constructor.
Defined.

(** ** More on the column mapper *)

(** X6: first one wins.  A column is mapped to a property exactly when its
    header is matched with that property (the first synonym hit in table
    order) and no header to its left is matched with it. *)
Theorem detectMapping_first_wins (headers : list jsstring) (i : nat) (p : prop) :
  detectMapping headers !! i = Some p ↔
  ∃ h, headers !! i = Some h ∧ hitOf h = Some p ∧
       ∀ j h', j < i → headers !! j = Some h' → hitOf h' ≠ Some p.
Proof. apply detectMapping_lookup. Qed.

Lemma detectMapping_first_wins_witness :
  detectMapping [str "User Name"; str "Login"; str "E-Mail"] !! 1 = Some p_username.
Proof.
  apply (proj2 (detectMapping_first_wins
                  [str "User Name"; str "Login"; str "E-Mail"] 1 p_username)).
  exists (str "Login"). split; [reflexivity|]. split; [vm_compute; reflexivity|].
  intros j h' Hj Hh'. destruct j as [|j]; [|lia].
  injection Hh' as <-. vm_compute. discriminate.
Defined.

(** X7: no property is given to two columns, and only columns that exist
    are mapped. *)
Theorem detectMapping_one_column (headers : list jsstring) (i j : nat) (p q : prop) :
  detectMapping headers !! i = Some p →
  (i < length headers)
  ∧ (detectMapping headers !! j = Some q → i ≠ j → p ≠ q).
Proof.
  intros Hi. split.
  - apply detectMapping_lookup in Hi as (h & Hh & _). by apply lookup_lt_Some in Hh.
  - intros Hj Hne ->. apply Hne. by apply (detectMapping_inj headers i j q).
Qed.

Lemma detectMapping_one_column_witness :
  1 < length appleHeaders
  ∧ (detectMapping appleHeaders !! 3 = Some p_password → 1 ≠ 3 → p_url ≠ p_password).
Proof.
  apply (detectMapping_one_column appleHeaders 1 3 p_url p_password).
  vm_compute. reflexivity.
Defined.

Lemma detectLoop_normalized (hs hs' : list jsstring) (idx : nat)
    (st : gmap nat prop * gset prop) :
  normalizeName <$> hs = normalizeName <$> hs' →
  detectLoop hs idx st = detectLoop hs' idx st.
Proof.
  revert hs' idx st. induction hs as [|h hs IH]; intros [|h' hs'] idx st Heq;
    try done.
  rewrite !fmap_cons in Heq. injection Heq as Hh Heq. simpl.
  unfold detectStep, hitOf. rewrite Hh. by apply IH.
Qed.

Lemma lowerChar_idemp (c : ascii) : lowerChar (lowerChar c) = lowerChar c.
Proof. destruct c as [[] [] [] [] [] [] [] []]; vm_compute; reflexivity. Qed.

Lemma toLowerCase_idemp (s : jsstring) : toLowerCase (toLowerCase s) = toLowerCase s.
Proof.
  unfold toLowerCase. rewrite map_map. apply map_ext. apply lowerChar_idemp.
Qed.

Lemma isSpace_not_alnum (c : ascii) :
  isSpace c = true → isAlnumLower (lowerChar c) = false.
Proof.
  destruct c as [[] [] [] [] [] [] [] []]; vm_compute; intros H;
    first [reflexivity | discriminate H].
Qed.

Lemma normalizeName_app (s t : jsstring) :
  normalizeName (s ++ t) = normalizeName s ++ normalizeName t.
Proof. unfold normalizeName, toLowerCase. by rewrite map_app, List.filter_app. Qed.

Lemma normalizeName_spaces (w : jsstring) :
  forallb isSpace w = true → normalizeName w = [].
Proof.
  induction w as [|c w IH]; [done|]. simpl. rewrite andb_true_iff.
  intros [Hc Hw]. unfold normalizeName in *. simpl.
  by rewrite (isSpace_not_alnum c Hc), IH.
Qed.

Lemma normalizeName_trim (s : jsstring) : normalizeName (trim s) = normalizeName s.
Proof.
  destruct (trim_decomp s) as (w & w' & Hs & Hw & Hw').
  rewrite Hs at 2. rewrite !normalizeName_app.
  by rewrite (normalizeName_spaces w), (normalizeName_spaces w'), app_nil_r.
Qed.

(** X8: the mapping depends on the headers only through their normalised
    form (lower-cased, everything but [a-z0-9] removed): header rows that
    agree after normalisation get the same mapping. *)
Theorem detectMapping_normalized (hs hs' : list jsstring) :
  normalizeName <$> hs = normalizeName <$> hs' →
  detectMapping hs = detectMapping hs'.
Proof.
  intros Heq. unfold detectMapping. by rewrite (detectLoop_normalized hs hs').
Qed.

Lemma detectMapping_normalized_witness :
  detectMapping [str "User_Name"; str " PASS-WORD "]
  = detectMapping [str "username"; str "password"].
Proof.
  apply (detectMapping_normalized [str "User_Name"; str " PASS-WORD "]
                                  [str "username"; str "password"]).
  vm_compute. reflexivity.
Defined.

(** X9: trimming or lower-casing the headers first, as [parseFile] does
    with [trim], changes nothing in the mapping. *)
Theorem detectMapping_trim_case (headers : list jsstring) :
  detectMapping ((fun h => trim (orElse h [])) <$> headers) = detectMapping headers
  ∧ detectMapping (toLowerCase <$> headers) = detectMapping headers.
Proof.
  split; unfold detectMapping;
    rewrite (detectLoop_normalized _ headers); try done;
    rewrite <- list_fmap_compose; apply list_fmap_ext; intros i h _; simpl.
  - by rewrite orElse_empty, normalizeName_trim.
  - unfold normalizeName. by rewrite toLowerCase_idemp.
Qed.

(** X10: columns to the right never change what the columns before them
    are mapped to. *)
Theorem detectMapping_app (hs hs' : list jsstring) (i : nat) :
  i < length hs →
  detectMapping (hs ++ hs') !! i = detectMapping hs !! i.
Proof.
  intros Hi. apply option_eq. intros p. rewrite !detectMapping_lookup.
  rewrite lookup_app_l by done.
  split; intros (h & Hh & Hhit & Hno); exists h; repeat split; try done.
  - intros j h' Hj Hh'. apply (Hno j h' Hj). by rewrite lookup_app_l by lia.
  - intros j h' Hj Hh'. rewrite lookup_app_l in Hh' by lia. by apply (Hno j h').
Qed.

Lemma detectMapping_app_witness :
  detectMapping ([str "site"; str "login"] ++ [str "website"; str "name"]) !! 0
  = detectMapping [str "site"; str "login"] !! 0.
Proof.
  apply (detectMapping_app [str "site"; str "login"] [str "website"; str "name"] 0).
  simpl. lia.
Defined.

(** ** More on URL normalisation *)

Lemma trimStart_idemp (s : jsstring) : trimStart (trimStart s) = trimStart s.
Proof.
  destruct (trimStart s) as [|c t] eqn:Hs; [done|].
  apply trimStart_head in Hs. by apply trimStart_id.
Qed.

Lemma trimEnd_idemp (s : jsstring) : trimEnd (trimEnd s) = trimEnd s.
Proof. unfold trimEnd. by rewrite reverse_involutive, trimStart_idemp. Qed.

Lemma trimStart_snoc (l : jsstring) (c : ascii) :
  isSpace c = false → trimStart (l ++ [c]) = trimStart l ++ [c].
Proof.
  intros Hc. induction l as [|d l IH]; simpl; [by rewrite Hc|].
  by destruct (isSpace d).
Qed.

Lemma trimEnd_cons (c : ascii) (t : jsstring) :
  isSpace c = false → trimEnd (c :: t) = c :: trimEnd t.
Proof.
  intros Hc. unfold trimEnd.
  by rewrite reverse_cons, trimStart_snoc, reverse_snoc.
Qed.

Lemma trim_idemp (s : jsstring) : trim (trim s) = trim s.
Proof.
  unfold trim. destruct (trimStart s) as [|c t] eqn:Hs; [done|].
  apply trimStart_head in Hs.
  rewrite trimEnd_cons, trimStart_id, trimEnd_cons by done.
  by rewrite trimEnd_idemp.
Qed.

Lemma startsWithCI_app (p s t : jsstring) :
  startsWithCI p s = true → startsWithCI p (s ++ t) = true.
Proof.
  revert s. induction p as [|a p IH]; intros [|b s]; simpl; try done.
  rewrite !andb_true_iff. intros [? ?]. auto.
Qed.

Lemma hasScheme_app (s t : jsstring) :
  hasScheme s = true → hasScheme (s ++ t) = true.
Proof.
  unfold hasScheme. rewrite !orb_true_iff.
  intros [H|H]; [left|right]; by apply startsWithCI_app.
Qed.

Lemma startsWithCI_length (p s : jsstring) :
  startsWithCI p s = true → length p ≤ length s.
Proof.
  revert s. induction p as [|a p IH]; intros [|b s]; simpl; try done; [lia|].
  rewrite andb_true_iff. intros [_ H]. apply IH in H. lia.
Qed.

Lemma hasScheme_length (s : jsstring) : hasScheme s = true → 7 ≤ length s.
Proof.
  unfold hasScheme. rewrite orb_true_iff.
  intros [H|H]; apply startsWithCI_length in H; simpl in H; lia.
Qed.

(** X11: the normalised url is empty exactly when the input is empty or
    white space only. *)
Theorem normaliseUrl_empty (x : jsstring) :
  normaliseUrl x = [] ↔ trim x = [].
Proof.
  unfold normaliseUrl. destruct x as [|c x]; [done|].
  change (truthy (c :: x)) with true. cbn [negb].
  destruct (trim (c :: x)) as [|d t']; [done|].
  split; [|done]. intros Hn. exfalso.
  change (truthy (d :: t')) with true in Hn. cbn [andb] in Hn.
  destruct (hasScheme (d :: t')) eqn:Hs; cbn [negb] in Hn.
  - pose proof (stripSlash_length (d :: t')) as Hlen.
    apply hasScheme_length in Hs. rewrite Hn in Hlen. simpl in *. lia.
  - pose proof (stripSlash_length (str "https://" ++ d :: t')) as Hlen.
    rewrite Hn in Hlen. simpl in Hlen. lia.
Qed.

(** X12: white space around the input never matters: normalising the
    trimmed string gives the same url. *)
Theorem normaliseUrl_trim (x : jsstring) :
  normaliseUrl (trim x) = normaliseUrl x.
Proof.
  destruct (trim x) as [|d t] eqn:Ht.
  - symmetry. by apply normaliseUrl_empty.
  - destruct x as [|c x]; [done|]. unfold normaliseUrl.
    change (truthy (d :: t)) with true. change (truthy (c :: x)) with true.
    cbn [negb]. by rewrite <- Ht, trim_idemp.
Qed.

(** X13: from a url that has a scheme, one slash at the end is removed
    and nothing else is changed. *)
Theorem normaliseUrl_trailing_slash (y : jsstring) :
  hasScheme y = true → normaliseUrl (y ++ [SLASH]) = y.
Proof.
  intros Hs. unfold normaliseUrl.
  assert (Htrim : trim (y ++ [SLASH]) = y ++ [SLASH]).
  { unfold trim. destruct (hasScheme_head y Hs) as (c & t & -> & Hc).
    rewrite <- app_comm_cons, trimStart_id by done.
    rewrite app_comm_cons. by apply trimEnd_id. }
  rewrite Htrim, (hasScheme_app y [SLASH] Hs).
  assert (Ht : truthy (y ++ [SLASH]) = true) by (by destruct y).
  rewrite Ht. cbn [negb andb]. unfold stripSlash. rewrite reverse_snoc.
  change (eqc SLASH SLASH) with true. cbn iota. apply reverse_involutive.
Qed.

Lemma normaliseUrl_trailing_slash_witness :
  normaliseUrl (str "HTTP://Example.com/a" ++ [SLASH]) = str "HTTP://Example.com/a".
Proof.
  apply (normaliseUrl_trailing_slash (str "HTTP://Example.com/a")).
  vm_compute. reflexivity.
Defined.

(** ** Domain extraction *)

Lemma split_loop_nonempty (sep : ascii) (s cur : jsstring) :
  split_loop sep s cur ≠ [].
Proof.
  revert cur. induction s as [|c s IH]; intros cur; simpl; [done|].
  destruct (eqc c sep); [done|apply IH].
Qed.

Lemma join_split_loop (sep : ascii) (s cur : jsstring) :
  join [sep] (split_loop sep s cur) = cur ++ s.
Proof.
  revert cur. induction s as [|c s IH]; intros cur; simpl.
  - by rewrite app_nil_r.
  - destruct (eqc c sep) eqn:Hc.
    + unfold eqc in Hc. apply bool_decide_eq_true in Hc as ->.
      destruct (split_loop sep s []) as [|x l] eqn:Hsp;
        [by apply split_loop_nonempty in Hsp|].
      rewrite join_cons_cons, <- Hsp, IH. done.
    + rewrite IH. by rewrite <- app_assoc.
Qed.

Lemma split_loop_free (sep : ascii) (s cur : jsstring) :
  sep ∉ cur → Forall (fun l => sep ∉ l) (split_loop sep s cur).
Proof.
  revert cur. induction s as [|c s IH]; intros cur Hcur; simpl.
  - by apply Forall_singleton.
  - destruct (eqc c sep) eqn:Hc.
    + apply Forall_cons. split; [done|]. apply IH. apply not_elem_of_nil.
    + apply IH. unfold eqc in Hc. apply bool_decide_eq_false in Hc.
      rewrite elem_of_app, list_elem_of_singleton. by intros [?|?].
Qed.

Lemma split_loop_label (sep : ascii) (p rest cur : jsstring) :
  sep ∉ p → split_loop sep (p ++ rest) cur = split_loop sep rest (cur ++ p).
Proof.
  revert cur. induction p as [|c p IH]; intros cur Hp; simpl.
  - by rewrite app_nil_r.
  - rewrite not_elem_of_cons in Hp. destruct Hp as [Hc Hp].
    unfold eqc. rewrite bool_decide_eq_false_2 by done.
    rewrite IH by done. by rewrite <- app_assoc.
Qed.

Lemma split_loop_sep (sep : ascii) (s cur : jsstring) :
  split_loop sep (sep :: s) cur = cur :: split_loop sep s [].
Proof. simpl. unfold eqc. by rewrite bool_decide_eq_true_2. Qed.

Lemma split_loop_join (sep : ascii) (p : jsstring) (ps : list jsstring)
    (cur : jsstring) :
  Forall (fun l => sep ∉ l) (p :: ps) →
  split_loop sep (join [sep] (p :: ps)) cur = (cur ++ p) :: ps.
Proof.
  revert p cur. induction ps as [|q ps IH]; intros p cur Hall.
  - apply Forall_cons in Hall as [Hp _]. simpl.
    rewrite <- (app_nil_r p) at 1. by rewrite split_loop_label.
  - apply Forall_cons in Hall as [Hp Hall].
    rewrite join_cons_cons, split_loop_label by done.
    change ([sep] ++ join [sep] (q :: ps)) with (sep :: join [sep] (q :: ps)).
    by rewrite split_loop_sep, (IH q []).
Qed.

Lemma join_drop_suffix (sep : jsstring) (l : list jsstring) (k : nat) :
  join sep (drop k l) `suffix_of` join sep l.
Proof.
  revert l. induction k as [|k IH]; intros l; [by rewrite drop_0|].
  destruct l as [|x l]; [done|]. simpl drop.
  etrans; [apply IH|]. destruct l as [|y l].
  - exists x. simpl. by rewrite app_nil_r.
  - rewrite join_cons_cons. exists (x ++ sep). by rewrite <- app_assoc.
Qed.

Lemma toLowerCase_join (sep : jsstring) (l : list jsstring) :
  toLowerCase (join sep l) = join (toLowerCase sep) (toLowerCase <$> l).
Proof.
  induction l as [|x l IH]; [done|]. destruct l as [|y l]; [done|].
  rewrite !fmap_cons, !join_cons_cons. unfold toLowerCase in *.
  rewrite !map_app. rewrite IH. done.
Qed.

Lemma lowerChar_dot (c : ascii) : lowerChar c = DOT → c = DOT.
Proof.
  destruct c as [[] [] [] [] [] [] [] []]; vm_compute; intros H;
    first [reflexivity | discriminate H].
Qed.

Lemma toLowerCase_dot_free (l : jsstring) : DOT ∉ l → DOT ∉ toLowerCase l.
Proof.
  intros Hl Hin. apply Hl. unfold toLowerCase in Hin.
  apply list_elem_of_fmap in Hin as (c & Hc & Hin).
  symmetry in Hc. apply lowerChar_dot in Hc. by subst.
Qed.

Lemma toLowerCase_suffix (r s : jsstring) :
  r `suffix_of` toLowerCase s → toLowerCase r = r.
Proof.
  intros [pre Hs].
  assert (Hall : Forall (fun c => lowerChar c = c) (toLowerCase s)).
  { unfold toLowerCase. apply Forall_fmap, Forall_true. intros c.
    apply lowerChar_idemp. }
  rewrite Hs in Hall. apply Forall_app in Hall as [_ Hall]. clear Hs.
  unfold toLowerCase. induction Hall as [|c r Hc _ IH]; [done|].
  change (lowerChar c :: map lowerChar r = c :: r). by rewrite Hc, IH.
Qed.

(** The three results [extractDomain] can give for a host name. *)
Lemma extractDomain_cases (hostname : jsstring → option jsstring)
    (u host : jsstring) :
  hostname u = Some host →
  ∃ k, extractDomain hostname u
       = join [DOT] (drop k (split DOT (toLowerCase host)))
       ∧ length (split DOT (toLowerCase host)) - k ≤ 3.
Proof.
  intros Hu. unfold extractDomain. rewrite Hu. simpl.
  set (parts := split DOT (toLowerCase host)).
  case_bool_decide as Hlen.
  - exists 0. rewrite drop_0. split; [|lia].
    unfold parts, split. by rewrite join_split_loop.
  - unfold sliceLast. case_bool_decide; eexists; split; try done; lia.
Qed.

Lemma extractDomain_props (hostname : jsstring → option jsstring)
    (u : jsstring) :
  toLowerCase (extractDomain hostname u) = extractDomain hostname u
  ∧ length (split DOT (extractDomain hostname u)) ≤ 3
  ∧ match hostname u with
    | Some host => extractDomain hostname u `suffix_of` toLowerCase host
    | None => extractDomain hostname u = []
    end.
Proof.
  destruct (hostname u) as [host|] eqn:Hu.
  2:{ unfold extractDomain. rewrite Hu. repeat split; simpl; lia. }
  destruct (extractDomain_cases hostname u host Hu) as (k & -> & Hk).
  set (parts := split DOT (toLowerCase host)) in *.
  assert (Hsuf : join [DOT] (drop k parts) `suffix_of` toLowerCase host).
  { replace (toLowerCase host) with (join [DOT] parts)
      by (unfold parts, split; by rewrite join_split_loop).
    apply join_drop_suffix. }
  split; [by apply (toLowerCase_suffix _ host)|]. split; [|done].
  assert (Hfree : Forall (fun l => DOT ∉ l) (drop k parts)).
  { apply Forall_drop. unfold parts, split. apply split_loop_free, not_elem_of_nil. }
  destruct (drop k parts) as [|p ps] eqn:Hd; [simpl; lia|].
  unfold split. rewrite split_loop_join by done. simpl.
  apply (f_equal length) in Hd. rewrite length_drop in Hd. simpl in Hd. lia.
Qed.

(** X14: the domain is a suffix of the lower-cased host name the URL
    parser reports, made of at most three of its labels, and is itself
    in lower case; it is empty when the URL parser rejects the url. *)
Theorem extractDomain_suffix (hostname : jsstring → option jsstring)
    (u : jsstring) :
  toLowerCase (extractDomain hostname u) = extractDomain hostname u
  ∧ length (split DOT (extractDomain hostname u)) ≤ 3
  ∧ match hostname u with
    | Some host => extractDomain hostname u `suffix_of` toLowerCase host
    | None => extractDomain hostname u = []
    end.
Proof. apply extractDomain_props. Qed.

(** X15: for a host name given by its labels, the domain is the lower-cased
    host when there are at most two labels, its last three labels when the
    label before the last is one of co, com, gov, ac, edu, net, org, and its
    last two labels otherwise. *)
Theorem extractDomain_labels (hostname : jsstring → option jsstring)
    (u : jsstring) (labels : list jsstring) :
  hostname u = Some (join [DOT] labels) →
  labels ≠ [] → Forall (fun l => DOT ∉ l) labels →
  extractDomain hostname u
  = join [DOT]
      (if bool_decide (length labels ≤ 2) then toLowerCase <$> labels
       else if bool_decide (toLowerCase (nth (length labels - 2) labels [])
                            ∈ secondLevelTlds)
            then sliceLast 3 (toLowerCase <$> labels)
            else sliceLast 2 (toLowerCase <$> labels)).
Proof.
  intros Hu Hne Hfree. unfold extractDomain. rewrite Hu.
  rewrite toLowerCase_join. change (toLowerCase [DOT]) with [DOT].
  assert (Hsplit : split DOT (join [DOT] (toLowerCase <$> labels))
                   = toLowerCase <$> labels).
  { destruct labels as [|p ps]; [done|]. rewrite fmap_cons.
    unfold split. rewrite split_loop_join; [done|].
    rewrite <- fmap_cons. apply Forall_fmap.
    eapply Forall_impl; [exact Hfree|]. intros l. apply toLowerCase_dot_free. }
  cbv zeta. rewrite Hsplit, length_fmap.
  case_bool_decide; [done|].
  replace (nth (length labels - 2) (toLowerCase <$> labels) [])
    with (toLowerCase (nth (length labels - 2) labels [])).
  - by case_bool_decide.
  - change [] with (toLowerCase []) at 2. symmetry. apply map_nth.
Qed.

Lemma extractDomain_labels_witness :
  extractDomain (alwaysHost (str "www.Example.co.uk")) (str "https://www.Example.co.uk/x")
  = str "example.co.uk".
Proof.
  apply (extractDomain_labels (alwaysHost (str "www.Example.co.uk"))
           (str "https://www.Example.co.uk/x")
           [str "www"; str "Example"; str "co"; str "uk"]).
  - reflexivity.
  - discriminate.
  - repeat constructor; apply (bool_decide_unpack _); vm_compute; exact I.
Defined.

(** ** The entries of a parsed file *)

Lemma parseFile_elem (hostname : jsstring → option jsstring)
    (file : option jsstring) (e : entry) :
  e ∈ parseFile hostname file →
  ∃ header row,
    e = buildEntry hostname
          (detectMapping ((fun h => trim (orElse h [])) <$> header)) row.
Proof.
  destruct file as [text|]; [|by intros ?%elem_of_nil].
  unfold parseFile, parseText.
  destruct (parseCSV text) as [|header rows]; [by intros ?%elem_of_nil|].
  rewrite rowsLoop_filter. simpl app.
  intros (row & -> & _)%list_elem_of_fmap. by exists header, row.
Qed.

(** X16: what every entry of a parsed file satisfies: its domain is
    [extractDomain] of its (normalised) url and is in lower case; its url is
    the normal form of some string; and a username with an at sign is in
    lower case. *)
Theorem parseFile_invariants (hostname : jsstring → option jsstring)
    (file : option jsstring) (e : entry) :
  e ∈ parseFile hostname file →
  domain e = extractDomain hostname (url e)
  ∧ toLowerCase (domain e) = domain e
  ∧ (∃ raw, url e = normaliseUrl raw)
  ∧ (AT ∈ username e → toLowerCase (username e) = username e).
Proof.
  intros (header & row & ->)%parseFile_elem.
  set (m := detectMapping _). unfold buildEntry. simpl.
  split; [done|]. split; [apply extractDomain_props|]. split; [by eexists|].
  set (u := username (mapFields m row 0 emptyEntry)).
  destruct (truthy u && existsb (eqc AT) u) eqn:Hc.
  - intros _. apply toLowerCase_idemp.
  - intros Hin. exfalso. apply andb_false_iff in Hc as [Hc|Hc].
    + destruct u; [by apply elem_of_nil in Hin|done].
    + assert (existsb (eqc AT) u = true); [|congruence].
      apply existsb_exists. exists AT. split; [by apply list_elem_of_In|].
      unfold eqc. by apply bool_decide_eq_true.
Qed.

Lemma parseFile_invariants_witness :
  domain (buildEntry rejectAll (detectMapping [str "login"; str "password"; str "url"])
                     [str "Bob@X.org"; str " P@ss Word "; str "x.org"])
  = extractDomain rejectAll (str "https://x.org")
  ∧ username (buildEntry rejectAll (detectMapping [str "login"; str "password"; str "url"])
                         [str "Bob@X.org"; str " P@ss Word "; str "x.org"])
    = str "bob@x.org".
Proof.
  pose proof (parseFile_invariants rejectAll (Some smallFile)
    (buildEntry rejectAll (detectMapping [str "login"; str "password"; str "url"])
                [str "Bob@X.org"; str " P@ss Word "; str "x.org"])) as H.
  destruct H as (Hd & _ & _ & _).
  - vm_compute. left.
  - split; [exact Hd|]. vm_compute. reflexivity.
Defined.

Lemma mapFields_range (mapping : gmap nat prop) (p : prop)
    (cells : list jsstring) (col : nat) (obj : entry) :
  (∀ c, col ≤ c < col + length cells → mapping !! c ≠ Some p) →
  getProp (mapFields mapping cells col obj) p = getProp obj p.
Proof.
  revert col obj. induction cells as [|cell cells IH]; intros col obj Hno; [done|].
  simpl in *. destruct (mapping !! col) as [q|] eqn:Hq.
  - rewrite IH by (intros c Hc; apply Hno; lia).
    rewrite getProp_setProp, decide_False; [done|].
    intros ->. apply (Hno col); [lia|done].
  - apply IH. intros c Hc. apply Hno. lia.
Qed.

Lemma buildEntry_default (hostname : jsstring → option jsstring)
    (mapping : gmap nat prop) (row : list jsstring) (p : prop) :
  getProp (mapFields mapping row 0 emptyEntry) p = [] →
  getProp (buildEntry hostname mapping row) p = [].
Proof.
  unfold buildEntry. destruct p; simpl; try done; intros ->; done.
Qed.

(** X17: a property keeps its default, the empty string, in the entry of
    every row in which no cell belongs to a column mapped to it: when no
    header is matched with it, and when the row is too short to reach its
    column. *)
Theorem buildEntry_unmapped (hostname : jsstring → option jsstring)
    (headers row : list jsstring) (p : prop) :
  (∀ c, c < length row → detectMapping headers !! c ≠ Some p) →
  getProp (buildEntry hostname (detectMapping headers) row) p = [].
Proof.
  intros Hno. apply buildEntry_default.
  rewrite mapFields_range; [by destruct p|].
  intros c Hc. apply Hno. lia.
Qed.

Lemma buildEntry_unmapped_witness :
  getProp (buildEntry rejectAll (detectMapping [str "login"; str "password"; str "url"])
                      [str "bob"; str "pw"]) p_url = [].
Proof.
  apply (buildEntry_unmapped rejectAll [str "login"; str "password"; str "url"]
                             [str "bob"; str "pw"] p_url).
  intros c Hc. simpl in Hc.
  destruct c as [|[|c]]; [vm_compute; discriminate|vm_compute; discriminate|lia].
Defined.

(** X18: a file gives at most one entry per row after the header row, so
    none when it is absent, empty or has a header row only. *)
Theorem parseFile_length (hostname : jsstring → option jsstring) (text : jsstring) :
  parseFile hostname None = []
  ∧ length (parseFile hostname (Some text)) ≤ length (parseCSV text) - 1.
Proof.
  split; [done|]. unfold parseFile, parseText.
  destruct (parseCSV text) as [|header rows]; [simpl; lia|].
  rewrite rowsLoop_filter. simpl app. rewrite length_fmap.
  pose proof (length_filter (fun r => isEmptyRow r = false) rows). simpl. lia.
Qed.

(** ** More on the comparator *)

(** X19: with nothing to compare against, every entry is missing. *)
Theorem computeMissing_nothing_known (listA : list entry) (strict : bool) :
  computeMissing listA [] strict = listA.
Proof.
  rewrite computeMissing_filter. induction listA as [|a listA IH]; [done|].
  rewrite filter_cons, decide_True by apply not_elem_of_nil. by rewrite IH.
Qed.

Lemma computeMissing_known_app (listA listB1 listB2 : list entry) (strict : bool) :
  computeMissing listA (listB1 ++ listB2) strict
  = computeMissing (computeMissing listA listB1 strict) listB2 strict.
Proof.
  rewrite !computeMissing_filter, list_filter_filter.
  apply list_filter_iff. intros a. rewrite fmap_app, elem_of_app. tauto.
Qed.

(** X20: how comparisons compose.  The entries of a concatenation are
    judged one list after the other; comparing against a concatenation is
    comparing against its parts in turn; and comparing the result once more
    against the same list removes nothing further. *)
Theorem computeMissing_compose (listA1 listA2 listB1 listB2 : list entry)
    (strict : bool) :
  computeMissing (listA1 ++ listA2) listB1 strict
  = computeMissing listA1 listB1 strict ++ computeMissing listA2 listB1 strict
  ∧ computeMissing listA1 (listB1 ++ listB2) strict
    = computeMissing (computeMissing listA1 listB1 strict) listB2 strict
  ∧ computeMissing (computeMissing listA1 listB1 strict) listB1 strict
    = computeMissing listA1 listB1 strict.
Proof.
  split; [|split].
  - rewrite !computeMissing_filter. apply filter_app.
  - apply computeMissing_known_app.
  - rewrite <- computeMissing_known_app, !computeMissing_filter.
    apply list_filter_iff. intros a. rewrite fmap_app, elem_of_app. tauto.
Qed.

(** X21: only the set of keys of [listB] matters: its order and its
    repetitions do not change the result. *)
Theorem computeMissing_key_set (listA listB listB' : list entry) (strict : bool) :
  (∀ k, k ∈ entryKey strict <$> listB ↔ k ∈ entryKey strict <$> listB') →
  computeMissing listA listB strict = computeMissing listA listB' strict.
Proof.
  intros Hkeys. rewrite !computeMissing_filter.
  apply list_filter_iff. intros a. by rewrite Hkeys.
Qed.

Lemma computeMissing_key_set_witness :
  computeMissing [alice; bare] [alice'; bare] false
  = computeMissing [alice; bare] [bare; alice; bare] false.
Proof.
  apply (computeMissing_key_set [alice; bare] [alice'; bare] [bare; alice; bare] false).
  intros k.
  assert (Hk : entryKey false alice' = entryKey false alice)
    by (vm_compute; reflexivity).
  rewrite !fmap_cons, !fmap_nil, Hk, !elem_of_cons, !elem_of_nil. tauto.
Defined.

(** X22: matching ignores letter case.  An entry of [listA] is not reported
    when [listB] has an entry whose compared fields (url and username in
    strict mode, domain and username otherwise) are the same up to letter
    case. *)
Theorem computeMissing_case_insensitive (listA listB : list entry)
    (strict : bool) (a b : entry) :
  b ∈ listB →
  toLowerCase (if strict then url a else domain a)
  = toLowerCase (if strict then url b else domain b) →
  toLowerCase (username a) = toLowerCase (username b) →
  a ∉ computeMissing listA listB strict.
Proof.
  intros Hb Hfst Hname. rewrite computeMissing_filter, list_elem_of_filter.
  intros [Hno _]. apply Hno. apply list_elem_of_fmap. exists b. split; [|done].
  unfold entryKey. rewrite !orElse_empty. destruct strict; by rewrite Hfst, Hname.
Qed.

Lemma computeMissing_case_insensitive_witness :
  alice ∉ computeMissing [bare; alice] [alice'] true.
Proof.
  apply (computeMissing_case_insensitive [bare; alice] [alice'] true alice alice').
  - left.
  - vm_compute. reflexivity.
  - vm_compute. reflexivity.
Defined.

(** ** More on the serialiser *)

(** X23: the output is determined by the five exported fields of the
    entries: what an entry holds as otpAuth and domain is never written. *)
Theorem generateCsv_five_fields (entries entries' : list entry) :
  fiveFields <$> entries = fiveFields <$> entries' →
  generateCsv entries = generateCsv entries'.
Proof.
  intros Heq. rewrite !generateCsv_join. f_equal. f_equal.
  revert entries' Heq. induction entries as [|e entries IH];
    intros [|e' entries'] Heq; try done.
  rewrite !fmap_cons in Heq. injection Heq as Ht Hu Hn Hp Hno Heq.
  rewrite !fmap_cons, (IH entries') by done. f_equal.
  unfold entryLine. by rewrite Ht, Hu, Hn, Hp, Hno.
Qed.

Lemma generateCsv_five_fields_witness :
  generateCsv [awkward]
  = generateCsv [mkEntry (title awkward) (url awkward) (username awkward)
                         (password awkward) (notes awkward) [] []].
Proof.
  apply (generateCsv_five_fields [awkward]
           [mkEntry (title awkward) (url awkward) (username awkward)
                    (password awkward) (notes awkward) [] []]).
  reflexivity.
Defined.

(** X24: nothing is lost in the file: two lists of exportable entries with
    the same output have the same five fields, entry by entry. *)
Theorem generateCsv_injective (entries entries' : list entry) :
  Forall (fun e => exportable e = true) entries →
  Forall (fun e => exportable e = true) entries' →
  generateCsv entries = generateCsv entries' →
  fiveFields <$> entries = fiveFields <$> entries'.
Proof.
  intros Hall Hall' Heq.
  pose proof (parseCSV_generateCsv_quoted entries Hall) as Hp.
  pose proof (parseCSV_generateCsv_quoted entries' Hall') as Hp'.
  rewrite Heq, Hp' in Hp. injection Hp as Hrows. clear -Hrows.
  revert entries Hrows. induction entries' as [|e' entries' IH];
    intros [|e entries] Hrows; try done.
  rewrite !fmap_cons in Hrows. injection Hrows as Ht Hu Hn Hp Hno Hrows.
  rewrite !fmap_cons, (IH entries) by done. f_equal.
  unfold fiveFields. congruence.
Qed.

Lemma generateCsv_injective_witness :
  fiveFields <$> [awkward]
  = fiveFields <$> [mkEntry (title awkward) (url awkward) (username awkward)
                            (password awkward) (notes awkward) [] []].
Proof.
  apply (generateCsv_injective [awkward]
           [mkEntry (title awkward) (url awkward) (username awkward)
                    (password awkward) (notes awkward) [] []]).
  - repeat constructor.
  - repeat constructor.
  - vm_compute. reflexivity.
Defined.

(** ** A synonym that is never reached *)

(** X25: a column whose header contains [username] (after normalisation)
    is matched with [title], through the synonym [name]: whatever the other
    headers are, it is never mapped to [username]. *)
Theorem username_header_unreachable (headers : list jsstring) (i : nat)
    (h : jsstring) :
  headers !! i = Some h →
  includes (normalizeName h) (str "username") = true →
  hitOf h = Some p_title ∧ detectMapping headers !! i ≠ Some p_username.
Proof.
  intros Hh Hinc.
  assert (Hhit : hitOf h = Some p_title) by (by apply username_shadowed).
  split; [done|]. rewrite detectMapping_lookup.
  intros (h' & Hh' & Hhit' & _). congruence.
Qed.

Lemma username_header_unreachable_witness :
  hitOf (str "Username") = Some p_title
  ∧ detectMapping [str "Password"; str "Username"] !! 1 ≠ Some p_username.
Proof.
  apply (username_header_unreachable [str "Password"; str "Username"] 1 (str "Username")).
  - reflexivity.
  - vm_compute. reflexivity.
Defined.
